(** * Family Pane: chore store, routes, real-time channel and display client

    A shallow embedding of

    - [server/services/database.js]  (class [Database], and the token store
      of [GoogleAuthService]),
    - [server/routes/api/chores.js]  (the chores router),
    - the Socket.IO connection handler of the server's main file,
    - the display client: the [API] class, the view channel and the chore
      board of [FamilyPaneApp], and [TouchHandler.handleSwipe],

    together with the part of the SQLite engine these files drive.

    Conventions of the model.

    - JavaScript values are the JSON scalars a request can carry
      ([Js.value]); numbers are integers, and objects are property lists.
    - A SQLite cell is [Sql.value]: NULL, INTEGER or TEXT.  REAL and BLOB
      cells and the column-affinity conversions (numeric text stored in an
      INTEGER column, a number stored in a TEXT column) are outside the
      model: a value is stored as it was bound.
    - The source never issues [PRAGMA foreign_keys = ON], so the FOREIGN KEY
      clauses of the schema are not enforced (SQLite's default).
    - [CURRENT_TIMESTAMP] is the argument [now] of every operation.
    - A promise is modelled by its final state ([Database.Outcome]); one call
      runs to completion before the next one starts.
    - A row read from the database is used as the cells it holds; the method
      [close] plays no part in the properties below and is left out.
    - On the display, the document is the list of the ids of its elements;
      rendering, timers and the calls to Google are not modelled. *)

From Stdlib Require Import ZArith String Ascii List Lia.
From stdpp Require Import base option list gmap sets strings sorting pretty.

Local Open Scope Z_scope.

(** ** JavaScript values *)

Module Js.

Inductive value : Type :=
| Undefined
| Null
| Bool (b : bool)
| Num (n : Z)
| NaN
| Str (s : string).

(** ToBoolean: the test performed by [if (x)], [!x] and [a || b]. *)
Definition truthy (v : value) : bool :=
  match v with
  | Undefined | Null | NaN => false
  | Bool b => b
  | Num n => negb (n =? 0)
  | Str s => negb (String.eqb s "")
  end.

(** Strict equality [===] on the modelled values. *)
Definition strict_eq (a b : value) : bool :=
  match a, b with
  | Undefined, Undefined | Null, Null => true
  | Bool x, Bool y => Bool.eqb x y
  | Num x, Num y => x =? y
  | Str x, Str y => String.eqb x y
  | _, _ => false
  end.

(** An object is its list of own properties, in insertion order. *)
Definition object : Type := list (string * value).

(** Property read [o.k]: [undefined] when the property is absent. *)
Fixpoint get (o : object) (k : string) : value :=
  match o with
  | [] => Undefined
  | (k', v) :: o' => if String.eqb k' k then v else get o' k
  end.

(** [Object.keys(o)] and [Object.values(o)]. *)
Definition keys (o : object) : list string := map fst o.
Definition values (o : object) : list value := map snd o.

(** Destructuring default [{ k = d }]: the default applies to [undefined] only. *)
Definition get_default (o : object) (k : string) (d : value) : value :=
  match get o k with
  | Undefined => d
  | v => v
  end.

(** *** [parseInt(s)] with no radix argument

    Leading white space is skipped (the ASCII white space characters only),
    then an optional sign and an optional [0x] prefix are read, then the
    longest run of digits; the result is exact, without the rounding of
    JavaScript numbers. *)

Definition is_space (c : ascii) : bool :=
  let n := N_of_ascii c in
  ((9 <=? n) && (n <=? 13) || (n =? 32))%N.

Fixpoint skip_spaces (s : string) : string :=
  match s with
  | String c s' => if is_space c then skip_spaces s' else s
  | EmptyString => s
  end.

Definition digit_val (radix : Z) (c : ascii) : option Z :=
  let n := Z.of_N (N_of_ascii c) in
  let d :=
    if (48 <=? n) && (n <=? 57) then Some (n - 48)
    else if (97 <=? n) && (n <=? 122) then Some (n - 87)
    else if (65 <=? n) && (n <=? 90) then Some (n - 55)
    else None in
  match d with
  | Some k => if k <? radix then Some k else None
  | None => None
  end.

(** The longest prefix of radix digits, as a number; [None] when it is empty. *)
Fixpoint digits (radix : Z) (s : string) (acc : option Z) : option Z :=
  match s with
  | String c s' =>
      match digit_val radix c with
      | Some d => digits radix s' (Some (radix * default 0 acc + d))
      | None => acc
      end
  | EmptyString => acc
  end.

Definition parseInt (s : string) : value :=
  let s1 := skip_spaces s in
  let '(neg, s2) :=
    match s1 with
    | String "-" r => (true, r)
    | String "+" r => (false, r)
    | _ => (false, s1)
    end in
  let '(radix, s3) :=
    match s2 with
    | String "0" (String "x" r) | String "0" (String "X" r) => (16, r)
    | _ => (10, s2)
    end in
  match digits radix s3 None with
  | Some n => Num (if neg then - n else n)
  | None => NaN
  end.

End Js.

(** ** The SQLite engine *)

Module Sql.

Inductive value : Type :=
| Null
| Integer (n : Z)
| Text (s : string).

#[global] Instance value_eq_dec : EqDecision value.
Proof. solve_decision. Defined.

(** Parameter binding of the driver: [undefined] leaves the parameter unbound,
    which SQLite reads as NULL; a NaN number is stored as NULL; a boolean is
    bound as 0 or 1. *)
Definition bind (v : Js.value) : value :=
  match v with
  | Js.Undefined | Js.Null | Js.NaN => Null
  | Js.Bool b => Integer (if b then 1 else 0)
  | Js.Num n => Integer n
  | Js.Str s => Text s
  end.

(** Sort order of cells: NULL first, then INTEGER by value, then TEXT by the
    BINARY collation (byte-wise comparison). *)
Definition compare (a b : value) : comparison :=
  match a, b with
  | Null, Null => Eq
  | Null, _ => Lt
  | _, Null => Gt
  | Integer x, Integer y => Z.compare x y
  | Integer _, Text _ => Lt
  | Text _, Integer _ => Gt
  | Text x, Text y => String.compare x y
  end.

(** The comparison operator [a = b] used in WHERE and ON clauses, read as a
    condition: a comparison with NULL is not true. *)
Definition eqb (a b : value) : bool :=
  match a, b with
  | Null, _ | _, Null => false
  | _, _ => bool_decide (a = b)
  end.

(** Result codes the modelled statements can produce, plus two failures that
    come from outside the model (the file system, a lock held elsewhere). *)
Inductive error : Type :=
| NotNull (column : string)
| Unique (column : string)
| Mismatch
| Syntax
| NoSuchColumn (name : string)
| Busy
| IoErr.

Definition result (A : Type) : Type := error + A.

(** *** Rows and tables (the schema of [createTables]) *)

Record member : Type := Member {
  m_id : Z;
  m_name : value;
  m_color : value;
  m_avatar_url : value;
  m_role : value;
  m_created_at : value;
  m_updated_at : value }.

Record chore : Type := Chore {
  c_id : Z;
  c_title : value;
  c_description : value;
  c_assigned_to : value;
  c_status : value;
  c_priority : value;
  c_due_date : value;
  c_completed_at : value;
  c_points : value;
  c_category : value;
  c_created_at : value;
  c_updated_at : value }.

Record completion : Type := Completion {
  cc_id : Z;
  cc_chore_id : value;
  cc_member_id : value;
  cc_completed_at : value;
  cc_points_earned : value }.

Record config : Type := Config {
  cfg_value : value;
  cfg_updated_at : value }.

(** The three [seq_] fields are the rows of [sqlite_sequence] that AUTOINCREMENT
    maintains.  The tables [photo_albums] and [oauth_tokens] are created but
    never read or written by the class and are left out. *)
Record tables : Type := Tables {
  family_members : list member;
  chores : list chore;
  chore_completions : list completion;
  display_config : gmap string config;
  seq_family_members : Z;
  seq_chores : Z;
  seq_chore_completions : Z }.

(** A database file on which the CREATE TABLE statements have just run. *)
Definition empty : tables :=
  Tables [] [] [] ∅ 0 0 0.

(** AUTOINCREMENT: one more than the largest rowid ever used. *)
Definition next_rowid (seq : Z) (rowids : list Z) : Z :=
  Z.max seq (foldr Z.max 0 rowids) + 1.

(** *** Transactions: the connection keeps the tables as they were at BEGIN

    BEGIN inside an open transaction and ROLLBACK outside one fail and change
    nothing; the source passes no callback to either, so nothing observes the
    failure. *)

Record conn : Type := Conn {
  data : tables;
  journal : option tables }.

Definition begin_transaction (db : conn) : conn :=
  match journal db with
  | None => Conn (data db) (Some (data db))
  | Some _ => db
  end.

Definition commit (db : conn) : conn := Conn (data db) None.

Definition rollback (db : conn) : conn :=
  match journal db with
  | Some t => Conn t None
  | None => db
  end.

Definition with_data (db : conn) (t : tables) : conn := Conn t (journal db).

(** The [err] a statement's callback receives: a failure from outside the
    model when there is one, the statement's own result otherwise. *)
Definition callback {A : Type} (fault : option error) (r : result A) : result A :=
  match fault with
  | Some e => inl e
  | None => r
  end.

(** *** Statements on [family_members] *)

(** [SELECT COUNT( * ) as count FROM family_members] *)
Definition count_members (t : tables) : Z :=
  Z.of_nat (length (family_members t)).

(** [INSERT INTO family_members (name, color, role) VALUES (?, ?, ?)] *)
Definition insert_member (now : string) (name color role : value) (t : tables)
  : result (Z * tables) :=
  if decide (name = Null) then inl (NotNull "family_members.name")
  else if existsb (fun m => eqb (m_name m) name) (family_members t)
  then inl (Unique "family_members.name")
  else
    let rowid := next_rowid (seq_family_members t) (map m_id (family_members t)) in
    let row := Member rowid name color Null role (Text now) (Text now) in
    inr (rowid,
         Tables (family_members t ++ [row]) (chores t) (chore_completions t)
                (display_config t) rowid (seq_chores t) (seq_chore_completions t)).

Definition member_name_le (a b : member) : Prop :=
  compare (m_name a) (m_name b) ≠ Gt.

#[global] Instance member_name_le_dec a b : Decision (member_name_le a b).
Proof. unfold member_name_le. solve_decision. Defined.

(** [SELECT * FROM family_members ORDER BY name] *)
Definition select_members (t : tables) : list member :=
  merge_sort member_name_le (family_members t).

(** *** Statements on [display_config] *)

(** [INSERT OR IGNORE INTO display_config (key, value) VALUES (?, ?)]: a row
    that would break the primary key or the NOT NULL on [value] is skipped. *)
Definition insert_or_ignore_config (now : string) (key : string) (v : value)
  (t : tables) : tables :=
  if decide (v = Null) then t
  else match display_config t !! key with
       | Some _ => t
       | None =>
           Tables (family_members t) (chores t) (chore_completions t)
                  (<[key := Config v (Text now)]> (display_config t))
                  (seq_family_members t) (seq_chores t) (seq_chore_completions t)
       end.

(** *** Statements on [chores] *)

(** [INSERT INTO chores (title, description, assigned_to, due_date, priority,
    category, points) VALUES (?, ?, ?, ?, ?, ?, ?)].  The columns that are not
    listed take their schema defaults: status 'pending', completed_at NULL,
    created_at and updated_at CURRENT_TIMESTAMP. *)
Definition insert_chore (now : string)
  (title description assigned_to due_date priority category points : value)
  (t : tables) : result (Z * tables) :=
  if decide (title = Null) then inl (NotNull "chores.title")
  else
    let rowid := next_rowid (seq_chores t) (map c_id (chores t)) in
    let row :=
      Chore rowid title description assigned_to (Text "pending") priority
            due_date Null points category (Text now) (Text now) in
    inr (rowid,
         Tables (family_members t) (chores t ++ [row]) (chore_completions t)
                (display_config t) (seq_family_members t) rowid
                (seq_chore_completions t)).

(** [WHERE id = ?] on a table whose [id] is the rowid. *)
Definition rowid_is (param : value) (rowid : Z) : bool :=
  eqb (Integer rowid) param.

(** [SELECT points FROM chores WHERE id = ?], read with [db.get]: the first
    row, or no row. *)
Definition select_points (choreId : value) (t : tables) : option value :=
  c_points <$> List.find (fun c => rowid_is choreId (c_id c)) (chores t).

Definition complete_row (now : string) (c : chore) : chore :=
  Chore (c_id c) (c_title c) (c_description c) (c_assigned_to c)
        (Text "completed") (c_priority c) (c_due_date c) (Text now)
        (c_points c) (c_category c) (c_created_at c) (c_updated_at c).

(** [UPDATE chores SET status = 'completed', completed_at = CURRENT_TIMESTAMP
    WHERE id = ?] *)
Definition update_completed (now : string) (choreId : value) (t : tables)
  : tables :=
  Tables (family_members t)
         (map (fun c => if rowid_is choreId (c_id c) then complete_row now c else c)
              (chores t))
         (chore_completions t) (display_config t)
         (seq_family_members t) (seq_chores t) (seq_chore_completions t).

(** The columns of [chores]. *)
Inductive column : Type :=
| Cid | Ctitle | Cdescription | Cassigned_to | Cstatus | Cpriority
| Cdue_date | Ccompleted_at | Cpoints | Ccategory | Ccreated_at | Cupdated_at.

#[global] Instance column_eq_dec : EqDecision column.
Proof. solve_decision. Defined.

(** Name resolution.  SQLite also accepts other spellings of a column name
    (upper case, quoted); those, and keys that carry SQL text, are outside the
    model and resolve to no column here. *)
Definition column_of_name (k : string) : option column :=
  if String.eqb k "id" then Some Cid
  else if String.eqb k "title" then Some Ctitle
  else if String.eqb k "description" then Some Cdescription
  else if String.eqb k "assigned_to" then Some Cassigned_to
  else if String.eqb k "status" then Some Cstatus
  else if String.eqb k "priority" then Some Cpriority
  else if String.eqb k "due_date" then Some Cdue_date
  else if String.eqb k "completed_at" then Some Ccompleted_at
  else if String.eqb k "points" then Some Cpoints
  else if String.eqb k "category" then Some Ccategory
  else if String.eqb k "created_at" then Some Ccreated_at
  else if String.eqb k "updated_at" then Some Cupdated_at
  else None.

(** Compiling the SET clause built from the keys: an empty clause is a syntax
    error, an unknown name is reported as such. *)
Fixpoint resolve_columns (ks : list string) : result (list column) :=
  match ks with
  | [] => inr []
  | k :: ks' =>
      match column_of_name k with
      | None => inl (NoSuchColumn k)
      | Some c =>
          match resolve_columns ks' with
          | inl e => inl e
          | inr cs => inr (c :: cs)
          end
      end
  end.

Definition prepare_set (ks : list string) : result (list column) :=
  match ks with
  | [] => inl Syntax
  | _ => resolve_columns ks
  end.

(** One assignment [col = v] to a column other than the rowid. *)
Definition set_column (col : column) (v : value) (c : chore) : chore :=
  let pick (k : column) (old : value) := if decide (k = col) then v else old in
  Chore (c_id c)
        (pick Ctitle (c_title c)) (pick Cdescription (c_description c))
        (pick Cassigned_to (c_assigned_to c)) (pick Cstatus (c_status c))
        (pick Cpriority (c_priority c)) (pick Cdue_date (c_due_date c))
        (pick Ccompleted_at (c_completed_at c)) (pick Cpoints (c_points c))
        (pick Ccategory (c_category c)) (pick Ccreated_at (c_created_at c))
        (pick Cupdated_at (c_updated_at c)).

Definition set_rowid (n : Z) (c : chore) : chore :=
  Chore n (c_title c) (c_description c) (c_assigned_to c) (c_status c)
        (c_priority c) (c_due_date c) (c_completed_at c) (c_points c)
        (c_category c) (c_created_at c) (c_updated_at c).

(** The new content of one row; when a column is assigned twice the rightmost
    assignment counts.  A rowid that is not an integer is a datatype mismatch
    (numeric text is not converted, as everywhere in the model). *)
Fixpoint assign (sets : list (column * value)) (c : chore) : result chore :=
  match sets with
  | [] => inr c
  | (Cid, Integer n) :: sets' => assign sets' (set_rowid n c)
  | (Cid, _) :: sets' => inl Mismatch
  | (col, v) :: sets' => assign sets' (set_column col v c)
  end.

(** Rewriting the rows that match [WHERE id = ?], with the constraint checks
    of the table: title NOT NULL, rowid unique.  [seen] are the rows already
    passed. *)
Fixpoint update_rows (sets : list (column * value)) (id : value)
  (seen rest : list chore) : result (list chore * Z) :=
  match rest with
  | [] => inr (seen, 0)
  | c :: rest' =>
      if rowid_is id (c_id c) then
        match assign sets c with
        | inl e => inl e
        | inr c' =>
            if decide (c_title c' = Null) then inl (NotNull "chores.title")
            else if existsb (fun o => c_id o =? c_id c') (seen ++ rest')
            then inl (Unique "chores.id")
            else
              match update_rows sets id (seen ++ [c']) rest' with
              | inl e => inl e
              | inr (rows, n) => inr (rows, n + 1)
              end
        end
      else update_rows sets id (seen ++ [c]) rest'
  end.

(** [UPDATE chores SET k1 = ?, ..., kn = ?, updated_at = CURRENT_TIMESTAMP
    WHERE id = ?]; the result is the number of rows changed.  A statement that
    fails changes nothing. *)
Definition update_chores (now : string) (ks : list string) (vs : list value)
  (id : value) (t : tables) : result (Z * tables) :=
  match prepare_set ks with
  | inl e => inl e
  | inr cols =>
      match update_rows (zip cols vs ++ [(Cupdated_at, Text now)]) id []
                        (chores t) with
      | inl e => inl e
      | inr (rows, n) =>
          inr (n,
               Tables (family_members t) rows (chore_completions t)
                      (display_config t) (seq_family_members t) (seq_chores t)
                      (seq_chore_completions t))
      end
  end.

(** *** Statements on [chore_completions] *)

(** [INSERT INTO chore_completions (chore_id, member_id, points_earned)
    VALUES (?, ?, ?)]; completed_at takes its default CURRENT_TIMESTAMP. *)
Definition insert_completion (now : string)
  (chore_id member_id points_earned : value) (t : tables)
  : result (Z * tables) :=
  if decide (chore_id = Null) then inl (NotNull "chore_completions.chore_id")
  else if decide (member_id = Null)
  then inl (NotNull "chore_completions.member_id")
  else
    let rowid :=
      next_rowid (seq_chore_completions t) (map cc_id (chore_completions t)) in
    let row := Completion rowid chore_id member_id (Text now) points_earned in
    inr (rowid,
         Tables (family_members t) (chores t) (chore_completions t ++ [row])
                (display_config t) (seq_family_members t) (seq_chores t) rowid).

(** *** The chore listing query *)

(** A row of [SELECT c.*, fm.name as assigned_name, fm.color as assigned_color
    FROM chores c LEFT JOIN family_members fm ON c.assigned_to = fm.id]. *)
Record chore_row : Type := ChoreRow {
  row_chore : chore;
  assigned_name : value;
  assigned_color : value }.

Definition left_join (ms : list member) (c : chore) : chore_row :=
  match List.find (fun m => eqb (c_assigned_to c) (Integer (m_id m))) ms with
  | Some m => ChoreRow c (m_name m) (m_color m)
  | None => ChoreRow c Null Null
  end.

(** [ORDER BY c.due_date ASC, c.priority DESC] *)
Definition order_compare (a b : chore_row) : comparison :=
  match compare (c_due_date (row_chore a)) (c_due_date (row_chore b)) with
  | Eq => compare (c_priority (row_chore b)) (c_priority (row_chore a))
  | o => o
  end.

Definition order_le (a b : chore_row) : Prop := order_compare a b ≠ Gt.


(** The query with its optional conditions [c.status = ?] and
    [c.assigned_to = ?].  SQL leaves the order of rows with equal keys open;
    here they stay in table order. *)
Definition select_chores (status assigned_to : option value) (t : tables)
  : list chore_row :=
  let cond (p : option value) (cell : value) :=
    match p with
    | Some v => eqb cell v
    | None => true
    end in
  merge_sort order_le
    (List.filter
       (fun r => cond status (c_status (row_chore r))
                 && cond assigned_to (c_assigned_to (row_chore r)))
       (map (left_join (family_members t)) (chores t))).

End Sql.

(** ** [server/services/database.js] *)

Module Database.

(** The errors of the class: [Error('Title is required for chores')],
    [Error(`Family member with ID ${assigned_to} does not exist`)], an error
    handed over by the driver, and the TypeError of a property read on
    [undefined]. *)
Inductive Error : Type :=
| TitleRequired
| MemberDoesNotExist (assigned_to : Js.value)
| SqliteError (e : Sql.error)
| TypeError.

(** The final state of the promise a method returns.  [Uncaught e]: an
    exception left a driver callback, outside the promise's executor, so the
    promise is never settled and [e] reaches no caller. *)
Inductive Outcome (A : Type) : Type :=
| Resolved (a : A)
| Rejected (e : Error)
| Uncaught (e : Error).

Arguments Resolved {A} a.
Arguments Rejected {A} e.
Arguments Uncaught {A} e.

Definition defaultConfigs : list (string * string) :=
  [ ("current_view", "dashboard");
    ("photo_rotation_interval", "30000");
    ("calendar_refresh_interval", "300000");
    ("display_brightness", "80");
    ("sleep_schedule_enabled", "0");
    ("sleep_start_time", "22:00");
    ("wake_time", "07:00") ].

Definition defaultMembers : list (string * string * string) :=
  [ ("Mom", "#E91E63", "admin");
    ("Dad", "#3F51B5", "admin");
    ("Child 1", "#4CAF50", "member");
    ("Child 2", "#FF9800", "member") ].

(** The loop [defaultConfigs.forEach(...)]: an error is logged, the loop goes on. *)
Definition seed_config (now : string) (l : list (string * string))
  (t : Sql.tables) : Sql.tables :=
  foldl (fun t config =>
           Sql.insert_or_ignore_config now config.1 (Sql.Text config.2) t) t l.

(** The loop [defaultMembers.forEach(...)]: the statements have no callback, a
    failed one inserts nothing. *)
Definition seed_members (now : string) (l : list (string * string * string))
  (t : Sql.tables) : Sql.tables :=
  foldl (fun t member =>
           match Sql.insert_member now (Sql.Text member.1.1)
                   (Sql.Text member.1.2) (Sql.Text member.2) t with
           | inr (_, t') => t'
           | inl _ => t
           end) t l.

Arguments seed_config : simpl never.
Arguments seed_members : simpl never.

(** [insertDefaultConfig()]: the members are seeded when the count query,
    which runs after the configuration inserts, finds no row. *)
Definition insertDefaultConfig (now : string) (db : Sql.conn) : Sql.conn :=
  let t1 := seed_config now defaultConfigs (Sql.data db) in
  if Sql.count_members t1 =? 0
  then Sql.with_data db (seed_members now defaultMembers t1)
  else Sql.with_data db t1.

(** [init()] and [createTables()]: open the file, CREATE TABLE IF NOT EXISTS,
    then seed.  [file] is [None] when the database file does not exist yet. *)
Definition init (now : string) (file : option Sql.tables) : Sql.conn :=
  insertDefaultConfig now (Sql.Conn (default Sql.empty file) None).

Definition getFamilyMembers (db : Sql.conn) : Outcome (list Sql.member) :=
  Resolved (Sql.select_members (Sql.data db)).

Definition addFamilyMember (now : string) (db : Sql.conn)
  (name color role : Js.value) : Outcome Z * Sql.conn :=
  let color := match color with Js.Undefined => Js.Str "#2196F3" | v => v end in
  let role := match role with Js.Undefined => Js.Str "member" | v => v end in
  match Sql.insert_member now (Sql.bind name) (Sql.bind color) (Sql.bind role)
          (Sql.data db) with
  | inl err => (Rejected (SqliteError err), db)
  | inr (lastID, t) => (Resolved lastID, Sql.with_data db t)
  end.

Definition getChores (db : Sql.conn) (status assignedTo : Js.value)
  : Outcome (list Sql.chore_row) :=
  let condition (v : Js.value) :=
    if Js.truthy v then Some (Sql.bind v) else None in
  Resolved (Sql.select_chores (condition status) (condition assignedTo)
                              (Sql.data db)).

Definition addChore (now : string) (db : Sql.conn) (chore : Js.object)
  : Outcome Z * Sql.conn :=
  let title := Js.get chore "title" in
  let description := Js.get chore "description" in
  let assigned_to := Js.get chore "assigned_to" in
  let due_date := Js.get chore "due_date" in
  let priority := Js.get_default chore "priority" (Js.Str "normal") in
  let category := Js.get_default chore "category" (Js.Str "general") in
  let points := Js.get_default chore "points" (Js.Num 1) in
  if negb (Js.truthy title) then (Rejected TitleRequired, db)
  else
    let thrown :=
      if Js.truthy assigned_to then
        match getFamilyMembers db with
        | Resolved members =>
            if existsb (fun m => Js.strict_eq (Js.Num (Sql.m_id m)) assigned_to)
                       members
            then None
            else Some (MemberDoesNotExist assigned_to)
        | Rejected e | Uncaught e => Some e
        end
      else None in
    match thrown with
    | Some e => (Rejected e, db)
    | None =>
        match Sql.insert_chore now (Sql.bind title) (Sql.bind description)
                (Sql.bind assigned_to) (Sql.bind due_date) (Sql.bind priority)
                (Sql.bind category) (Sql.bind points) (Sql.data db) with
        | inl err => (Rejected (SqliteError err), db)
        | inr (lastID, t) => (Resolved lastID, Sql.with_data db t)
        end
    end.

Definition updateChore (now : string) (db : Sql.conn) (id : Js.value)
  (updates : Js.object) : Outcome Z * Sql.conn :=
  match Sql.update_chores now (Js.keys updates)
          (map Sql.bind (Js.values updates)) (Sql.bind id) (Sql.data db) with
  | inl err => (Rejected (SqliteError err), db)
  | inr (changes, t) => (Resolved changes, Sql.with_data db t)
  end.

(** Failures from outside the model that the three statements of
    [completeChore] may meet. *)
Record Faults : Type := {
  select_fault : option Sql.error;
  update_fault : option Sql.error;
  insert_fault : option Sql.error }.

Definition healthy : Faults := Build_Faults None None None.

(** [completeChore(choreId, memberId)].  [chore] is the row the SELECT
    callback receives, [None] for JavaScript's [undefined]; the parameter list
    of the INSERT reads [chore.points] inside the UPDATE callback. *)
Definition completeChore (env : Faults) (now : string) (db : Sql.conn)
  (choreId memberId : Js.value) : Outcome bool * Sql.conn :=
  let db0 := Sql.begin_transaction db in
  match Sql.callback (select_fault env)
          (inr (Sql.select_points (Sql.bind choreId) (Sql.data db0))) with
  | inl err => (Rejected (SqliteError err), Sql.rollback db0)
  | inr chore =>
      match Sql.callback (update_fault env)
              (inr (Sql.update_completed now (Sql.bind choreId) (Sql.data db0)))
      with
      | inl err => (Rejected (SqliteError err), Sql.rollback db0)
      | inr t1 =>
          let db1 := Sql.with_data db0 t1 in
          match chore with
          | None => (Uncaught TypeError, db1)
          | Some points =>
              match Sql.callback (insert_fault env)
                      (Sql.insert_completion now (Sql.bind choreId)
                         (Sql.bind memberId) points t1) with
              | inl err => (Rejected (SqliteError err), Sql.rollback db1)
              | inr (_, t2) => (Resolved true, Sql.commit (Sql.with_data db1 t2))
              end
          end
      end
  end.

(** *** The configuration table ([getConfig], [setConfig]) *)

(** A cell handed to JavaScript in a result row. *)
Definition to_js (v : Sql.value) : Js.value :=
  match v with
  | Sql.Null => Js.Null
  | Sql.Integer n => Js.Num n
  | Sql.Text s => Js.Str s
  end.

(** [getConfig(key)]: [SELECT value FROM display_config WHERE key = ?], then
    [row ? row.value : null].  The key is a string, as at every call. *)
Definition getConfig (db : Sql.conn) (key : string) : Outcome Js.value :=
  Resolved
    match Sql.display_config (Sql.data db) !! key with
    | Some row => to_js (Sql.cfg_value row)
    | None => Js.Null
    end.

(** [INSERT OR REPLACE INTO display_config (key, value, updated_at)
    VALUES (?, ?, CURRENT_TIMESTAMP)]: a row with the same key is replaced; a
    NULL value breaks NOT NULL, and as the column has no default the
    statement aborts. *)
Definition replace_config (now : string) (key : string) (v : Sql.value)
  (t : Sql.tables) : Sql.result Sql.tables :=
  if decide (v = Sql.Null) then inl (Sql.NotNull "display_config.value")
  else
    inr (Sql.Tables (Sql.family_members t) (Sql.chores t)
           (Sql.chore_completions t)
           (<[key := Sql.Config v (Sql.Text now)]> (Sql.display_config t))
           (Sql.seq_family_members t) (Sql.seq_chores t)
           (Sql.seq_chore_completions t)).

(** [setConfig(key, value)].  The promise resolves with the driver's
    [lastID], a rowid of [display_config] that the model does not keep; the
    resolved value is modelled as [tt]. *)
Definition setConfig (now : string) (db : Sql.conn) (key : string)
  (value : Js.value) : Outcome unit * Sql.conn :=
  match replace_config now key (Sql.bind value) (Sql.data db) with
  | inl err => (Rejected (SqliteError err), db)
  | inr t => (Resolved tt, Sql.with_data db t)
  end.

End Database.

(** ** [server/routes/api/chores.js] *)

Module Routes.

Import Database.

Record Request : Type := {
  param_choreId : string;
  query : Js.object;
  body : Js.object }.

Inductive Json : Type :=
| Chores (chores : list Sql.chore_row)
| Created (id : Z) (message : string)
| Message (message : string)
| Failure (error : string).

(** [res.status(code).json(body)]; [res.json(body)] answers 200. *)
Record Response : Type := {
  status : Z;
  json : Json }.

(** [try { const x = await p; ok(x) } catch (error) { fail }]: a promise that
    is never settled produces no response. *)
Definition respond {A : Type} (p : Outcome A) (ok : A -> Response)
  (fail : Response) : option Response :=
  match p with
  | Resolved a => Some (ok a)
  | Rejected _ => Some fail
  | Uncaught _ => None
  end.

(** GET / *)
Definition get_chores (db : Sql.conn) (req : Request) : option Response :=
  respond (getChores db (Js.get (query req) "status")
                     (Js.get (query req) "assignedTo"))
          (fun chores => Build_Response 200 (Chores chores))
          (Build_Response 500 (Failure "Failed to fetch chores")).

(** POST / *)
Definition post_chore (now : string) (db : Sql.conn) (req : Request)
  : option Response * Sql.conn :=
  let '(p, db') := addChore now db (body req) in
  (respond p
     (fun choreId => Build_Response 201 (Created choreId "Chore created successfully"))
     (Build_Response 500 (Failure "Failed to create chore")),
   db').

(** PUT /:choreId *)
Definition put_chore (now : string) (db : Sql.conn) (req : Request)
  : option Response * Sql.conn :=
  let choreId := Js.parseInt (param_choreId req) in
  let '(p, db') := updateChore now db choreId (body req) in
  (respond p
     (fun changes =>
        if changes =? 0
        then Build_Response 404 (Failure "Chore not found")
        else Build_Response 200 (Message "Chore updated successfully"))
     (Build_Response 500 (Failure "Failed to update chore")),
   db').

(** POST /:choreId/complete *)
Definition post_complete (now : string) (db : Sql.conn) (req : Request)
  : option Response * Sql.conn :=
  let choreId := Js.parseInt (param_choreId req) in
  let memberId := Js.get (body req) "memberId" in
  let '(p, db') := completeChore healthy now db choreId memberId in
  (respond p
     (fun _ => Build_Response 200 (Message "Chore completed successfully"))
     (Build_Response 500 (Failure "Failed to complete chore")),
   db').

End Routes.

(** ** [server/routes/api/chores.js]: the member routes and DELETE *)

Module MemberRoutes.

Import Database.

Inductive Json : Type :=
| Members (members : list Sql.member)
| Created (id : Z) (message : string)
| Message (message : string)
| Failure (error : string).

Record Response : Type := {
  status : Z;
  json : Json }.

(** GET /members *)
Definition get_members (db : Sql.conn) : option Response :=
  match getFamilyMembers db with
  | Resolved members => Some (Build_Response 200 (Members members))
  | Rejected _ =>
      Some (Build_Response 500 (Failure "Failed to fetch family members"))
  | Uncaught _ => None
  end.

(** POST /members, with [const { name, color, role } = req.body]. *)
Definition post_member (now : string) (db : Sql.conn) (body : Js.object)
  : option Response * Sql.conn :=
  let name := Js.get body "name" in
  let color := Js.get body "color" in
  let role := Js.get body "role" in
  let '(p, db') := addFamilyMember now db name color role in
  (match p with
   | Resolved memberId =>
       Some (Build_Response 201
               (Created memberId "Family member added successfully"))
   | Rejected _ =>
       Some (Build_Response 500 (Failure "Failed to add family member"))
   | Uncaught _ => None
   end,
   db').

(** DELETE /:choreId: the id is parsed and not used. *)
Definition delete_chore (db : Sql.conn) (param_choreId : string)
  : option Response * Sql.conn :=
  let choreId := Js.parseInt param_choreId in
  (Some (Build_Response 200 (Message "Delete chore - to be implemented")), db).

End MemberRoutes.

(** ** The Socket.IO connection handler *)

Module Realtime.

(** The server side of the channel: the ids of the connected sockets. *)
Definition io : Type := gset string.

(** One message put on the wire: recipient, event name, payload. *)
Definition delivery (P : Type) : Type := string * (string * P).

(** [io.emit(name, payload)]: one message to every connected socket. *)
Definition emit {P : Type} (server : io) (name : string) (payload : P)
  : list (delivery P) :=
  (fun id => (id, (name, payload))) <$> elements server.

(** The listeners registered on each socket by [io.on('connection', ...)];
    an event without a listener is dropped. *)
Definition on_event {P : Type} (server : io) (socket : string)
  (name : string) (payload : P) : list (delivery P) :=
  if String.eqb name "switch-view" then emit server "view-changed" payload
  else if String.eqb name "config-update" then emit server "config-changed" payload
  else if String.eqb name "chore-update" then emit server "chore-changed" payload
  else [].

(** The three events of the channel, with the name a client sends and the name
    under which the server announces it. *)
Inductive event : Type := switch_view | config_update | chore_update.

Definition received (e : event) : string :=
  match e with
  | switch_view => "switch-view"
  | config_update => "config-update"
  | chore_update => "chore-update"
  end.

Definition announced (e : event) : string :=
  match e with
  | switch_view => "view-changed"
  | config_update => "config-changed"
  | chore_update => "chore-changed"
  end.

Definition connect (server : io) (socket : string) : io := {[socket]} ∪ server.

Definition disconnect (server : io) (socket : string) : io := server ∖ {[socket]}.

End Realtime.

(** ** More of JavaScript: text, arrays and object spread *)

Module JsRuntime.

(** [String(v)], the conversion a template literal applies.  The decimal
    numeral is what JavaScript prints for an integer below 10^21 in absolute
    value; larger numbers are printed with an exponent and are outside the
    model. *)
Definition to_string (v : Js.value) : string :=
  match v with
  | Js.Undefined => "undefined"
  | Js.Null => "null"
  | Js.Bool true => "true"
  | Js.Bool false => "false"
  | Js.Num n => pretty n
  | Js.NaN => "NaN"
  | Js.Str s => s
  end.

(** [a[i]] on an array of strings. *)
Definition index (a : list string) (i : Z) : Js.value :=
  if i <? 0 then Js.Undefined
  else match a !! Z.to_nat i with
       | Some s => Js.Str s
       | None => Js.Undefined
       end.

(** [a.indexOf(v)]: the first position that is strictly equal, or -1. *)
Fixpoint indexOf (a : list string) (v : Js.value) : Z :=
  match a with
  | [] => -1
  | s :: a' =>
      if Js.strict_eq (Js.Str s) v then 0
      else let i := indexOf a' v in if i <? 0 then -1 else i + 1
  end.

(** Property assignment [o[k] = v]: an own property keeps its place, a new
    one goes last. *)
Fixpoint assign (o : Js.object) (k : string) (v : Js.value) : Js.object :=
  match o with
  | [] => [(k, v)]
  | (k', v') :: o' =>
      if String.eqb k' k then (k', v) :: o' else (k', v') :: assign o' k v
  end.

(** [Object.assign(o, b)]: the properties of [b] assigned to [o], in order. *)
Definition assign_all (o b : Js.object) : Js.object :=
  foldl (fun o kv => assign o kv.1 kv.2) o b.

(** [{...a, ...b}]: a new object that receives the properties of [a], then
    those of [b]. *)
Definition spread (a b : Js.object) : Js.object :=
  assign_all (assign_all [] a) b.

(** [JSON.parse(JSON.stringify(o))] on an object of scalars: a property that
    is [undefined] is dropped and NaN becomes null. *)
Definition json (o : Js.object) : Js.object :=
  omap (fun kv : string * Js.value =>
          match kv.2 with
          | Js.Undefined => None
          | Js.NaN => Some (kv.1, Js.Null)
          | _ => Some kv
          end) o.

End JsRuntime.

(** ** The API client of the display ([API]) *)

Module Api.

Import Database.

(** How an awaited call ends: with a value, with an exception, or not at all. *)
Inductive reply (A : Type) : Type :=
| Returned (a : A)
| Thrown (status : Z)
| Pending.

Arguments Returned {A} a.
Arguments Thrown {A} status.
Arguments Pending {A}.

(** [response.ok] *)
Definition ok (status : Z) : bool := (200 <=? status) && (status <=? 299).

(** [request]: a response outside 200..299 is thrown as an error. *)
Definition request (r : option Routes.Response) : reply Routes.Json :=
  match r with
  | Some res =>
      if ok (Routes.status res) then Returned (Routes.json res)
      else Thrown (Routes.status res)
  | None => Pending
  end.

(** A row of the chore listing as the JSON object the display receives. *)
Definition row_json (r : Sql.chore_row) : Js.object :=
  let c := Sql.row_chore r in
  [("id", Js.Num (Sql.c_id c));
   ("title", to_js (Sql.c_title c));
   ("description", to_js (Sql.c_description c));
   ("assigned_to", to_js (Sql.c_assigned_to c));
   ("status", to_js (Sql.c_status c));
   ("priority", to_js (Sql.c_priority c));
   ("due_date", to_js (Sql.c_due_date c));
   ("completed_at", to_js (Sql.c_completed_at c));
   ("points", to_js (Sql.c_points c));
   ("category", to_js (Sql.c_category c));
   ("created_at", to_js (Sql.c_created_at c));
   ("updated_at", to_js (Sql.c_updated_at c));
   ("assigned_name", to_js (Sql.assigned_name r));
   ("assigned_color", to_js (Sql.assigned_color r))].

(** [getChores()] with no filter: GET /api/chores, then
    [response.chores || []]; an error is caught and gives the empty list. *)
Definition getChores (db : Sql.conn) : option (list Js.object) :=
  match request (Routes.get_chores db (Routes.Build_Request "" [] [])) with
  | Returned (Routes.Chores rows) => Some (row_json <$> rows)
  | Returned _ => Some []
  | Thrown _ => Some []
  | Pending => None
  end.

(** [updateChore(choreId, updates)]: PUT /api/chores/${choreId} with the
    updates as JSON body.  The id is a number, as at every call. *)
Definition updateChore (now : string) (db : Sql.conn) (choreId : Js.value)
  (updates : Js.object) : reply Routes.Json * Sql.conn :=
  let '(r, db') :=
    Routes.put_chore now db
      (Routes.Build_Request (JsRuntime.to_string choreId) []
         (JsRuntime.json updates)) in
  (request r, db').

(** What [retry] ends with. *)
Inductive settled (A E : Type) : Type :=
| Fulfilled (a : A)
| FulfilledUndefined
| Failed (e : E).

Arguments Fulfilled {A E} a.
Arguments FulfilledUndefined {A E}.
Arguments Failed {A E} e.

(** The loop of [retry(fn, maxRetries, delay)] from iteration [i] on, with
    [todo] iterations left before [i < maxRetries] fails.  [fn k] is what the
    call number [k] of [fn] does: it throws [inl e] or returns [inr a].  The
    result comes with the delays waited, in order. *)
Fixpoint retry_loop {A E : Type} (fn : nat -> E + A) (maxRetries : Z)
  (todo : nat) (i : nat) (delay : Z) : settled A E * list Z :=
  match todo with
  | O => (FulfilledUndefined, [])
  | S todo' =>
      match fn i with
      | inr a => (Fulfilled a, [])
      | inl e =>
          if Z.of_nat i =? maxRetries - 1 then (Failed e, [])
          else
            let '(r, waits) :=
              retry_loop fn maxRetries todo' (S i) (delay * 2) in
            (r, delay :: waits)
      end
  end.

Definition retry {A E : Type} (fn : nat -> E + A) (maxRetries delay : Z)
  : settled A E * list Z :=
  retry_loop fn maxRetries (Z.to_nat maxRetries) 0 delay.

End Api.

(** ** The display: views, swipes and the chore board *)

Module Display.

(** An element of the document: its id and its class list. *)
Record element : Type := {
  element_id : string;
  classList : list string }.

(** [document.getElementById(i)]: the first element with the id. *)
Definition getElementById (doc : list element) (i : string) : option element :=
  List.find (fun e => String.eqb (element_id e) i) doc.

(** [e.classList.contains(c)], [e.classList.remove(c)], [e.classList.add(c)] *)
Definition has_class (c : string) (e : element) : bool :=
  existsb (String.eqb c) (classList e).

Definition remove_class (c : string) (e : element) : element :=
  Build_element (element_id e)
    (List.filter (fun c' => negb (String.eqb c c')) (classList e)).

Definition add_class (c : string) (e : element) : element :=
  if has_class c e then e
  else Build_element (element_id e) (classList e ++ [c]).

(** [document.querySelectorAll('.view').forEach(view =>
    view.classList.remove('active'))] *)
Definition hide_views (doc : list element) : list element :=
  map (fun e => if has_class "view" e then remove_class "active" e else e) doc.

(** [target.classList.add('active')] for the element that
    [getElementById(i)] returns. *)
Fixpoint activate (doc : list element) (i : string) : list element :=
  match doc with
  | [] => []
  | e :: doc' =>
      if String.eqb (element_id e) i then add_class "active" e :: doc'
      else e :: activate doc' i
  end.

(** The part of the application the view channel reads and writes:
    [this.currentView] and the elements of the document. *)
Record App : Type := {
  currentView : Js.value;
  document : list element }.

(** [socket.emit(name, payload)] *)
Definition message (P : Type) : Type := string * P.

(** [switchView(viewName)]: every view is hidden; then, with an element
    [<viewName>-view] in the document, that element is shown, the view
    becomes current and the switch is sent to the server; without one nothing
    is recorded and nothing is sent.  The button and the menu that
    [updateViewSwitcher] restyles are not part of the model, and
    [loadViewData], which is started as well, reloads [this.data] only. *)
Definition switchView (app : App) (viewName : Js.value)
  : App * list (message Js.value) :=
  let doc := hide_views (document app) in
  let target := JsRuntime.to_string viewName +:+ "-view" in
  match getElementById doc target with
  | Some _ =>
      (Build_App viewName (activate doc target), [("switch-view", viewName)])
  | None => (Build_App (currentView app) doc, [])
  end.

(** What a display records and shows: the current view and the ids of the
    elements of class 'view' that are active. *)
Definition shown (doc : list element) : list string :=
  element_id
    <$> List.filter (fun e => has_class "view" e && has_class "active" e) doc.

Definition look (app : App) : Js.value * list string :=
  (currentView app, shown (document app)).

(** The listeners of [initSocket], on the view state, for a payload that is a
    view name: only 'view-changed' has an effect there. *)
Definition on_message (app : App) (name : string) (payload : Js.value)
  : App * list (message Js.value) :=
  if String.eqb name "view-changed" then switchView app payload
  else (app, []).

(** [TouchHandler.handleSwipe(direction)], with the application present.  A
    swipe up opens the view menu and a swipe down reloads the data; neither
    touches the view state. *)
Definition views : list string :=
  ["dashboard"; "calendar-photos"; "chores"; "photos"; "messages"].

Definition handleSwipe (app : App) (direction : string)
  : App * list (message Js.value) :=
  let currentIndex := JsRuntime.indexOf views (currentView app) in
  if String.eqb direction "left" then
    let nextIndex := Z.rem (currentIndex + 1) (Z.of_nat (length views)) in
    switchView app (JsRuntime.index views nextIndex)
  else if String.eqb direction "right" then
    let prevIndex :=
      if currentIndex =? 0 then Z.of_nat (length views) - 1
      else currentIndex - 1 in
    switchView app (JsRuntime.index views prevIndex)
  else (app, []).

(** [updateChore(choreData)], the listener of 'chore-changed', on
    [this.data.chores]. *)
Definition same_id (choreData c : Js.object) : bool :=
  Js.strict_eq (Js.get c "id") (Js.get choreData "id").

Definition updateChore (chores : list Js.object) (choreData : Js.object)
  : list Js.object :=
  match list_find (fun c => same_id choreData c = true) chores with
  | Some (choreIndex, c) =>
      <[choreIndex := JsRuntime.spread c choreData]> chores
  | None => chores
  end.



End Display.

(** ** Displays and server together *)

Module Network.

(** The displays by socket id, and the deliveries under way, oldest first. *)
Record state : Type := {
  displays : gmap string Display.App;
  queue : list (Realtime.delivery Js.value) }.

(** What the server does with the messages a socket sent. *)
Definition serve (server : Realtime.io) (socket : string)
  (out : list (Display.message Js.value)) : list (Realtime.delivery Js.value) :=
  out ≫= (fun m => Realtime.on_event server socket m.1 m.2).

(** The oldest delivery reaches its display; the server handles what the
    display sends in return.  A delivery to a socket that is no display is
    dropped. *)
Definition step (server : Realtime.io) (st : state) : state :=
  match queue st with
  | [] => st
  | (to, (name, payload)) :: rest =>
      match displays st !! to with
      | Some app =>
          let '(app', out) := Display.on_message app name payload in
          Build_state (<[to := app']> (displays st))
                      (rest ++ serve server to out)
      | None => Build_state (displays st) rest
      end
  end.

(** Somebody picks a view on the display [socket]. *)
Definition pick (server : Realtime.io) (socket : string)
  (viewName : Js.value) (st : state) : state :=
  match displays st !! socket with
  | Some app =>
      let '(app', out) := Display.switchView app viewName in
      Build_state (<[socket := app']> (displays st))
                  (queue st ++ serve server socket out)
  | None => st
  end.

End Network.

(** ** The token store of [GoogleAuthService]

    [this.tokens], a Map from user id to the token object of the user.  The
    copies that [saveTokens] writes to disk are not modelled: the methods
    below read the Map only, and a failed write is logged and ignored. *)

Module GoogleAuth.

(** [handleTokenRefresh(tokens, userId)] *)
Definition handleTokenRefresh (tokens : gmap string Js.object)
  (newTokens : Js.object) (userId : string) : gmap string Js.object :=
  let existingTokens := default [] (tokens !! userId) in
  <[userId := JsRuntime.spread existingTokens newTokens]> tokens.

(** [isAuthenticated(userId)] *)
Definition isAuthenticated (tokens : gmap string Js.object)
  (userId : string) : bool :=
  match tokens !! userId with
  | Some t => Js.truthy (Js.get t "access_token")
  | None => false
  end.

(** [revokeTokens(userId)]; [revoked] tells whether the call to Google's
    revocation endpoint succeeds.  The result is [false] when the method
    throws. *)
Definition revokeTokens (revoked : bool) (tokens : gmap string Js.object)
  (userId : string) : bool * gmap string Js.object :=
  match tokens !! userId with
  | None => (true, tokens)
  | Some t =>
      if Js.truthy (Js.get t "access_token") && negb revoked
      then (false, tokens)
      else (true, delete userId tokens)
  end.

End GoogleAuth.

(** ** Stores used as concrete inputs *)

Module Examples.

Import Database.

Definition t0 : string := "2025-01-01 08:00:00".
Definition t1 : string := "2025-01-02 09:30:00".
Definition t2 : string := "2025-01-03 18:45:00".

(** A database file that did not exist, after start-up. *)
Definition seeded : Sql.conn := init t0 None.

(** One chore without a due date, then one with a due date. *)
Definition two_chores : Sql.conn :=
  let db1 :=
    (addChore t1 seeded [("title", Js.Str "Trash"); ("points", Js.Num 3)]).2 in
  (addChore t1 db1
     [("title", Js.Str "Dishes"); ("assigned_to", Js.Num 1);
      ("due_date", Js.Str "2025-01-10")]).2.




End Examples.

(** ** Displays used as concrete inputs *)

Module DisplayExamples.

(** A page with the elements of the five views and a header, showing the
    dashboard. *)
Definition page : list Display.element :=
  [Display.Build_element "header" ["md-toolbar"];
   Display.Build_element "dashboard-view" ["view"; "active"];
   Display.Build_element "calendar-photos-view" ["view"];
   Display.Build_element "chores-view" ["view"];
   Display.Build_element "photos-view" ["view"];
   Display.Build_element "messages-view" ["view"]].

Definition dashboard : Display.App :=
  Display.Build_App (Js.Str "dashboard") page.

(** The same page while a view outside the list is recorded as current. *)
Definition elsewhere : Display.App :=
  Display.Build_App (Js.Str "settings") page.

(** Two displays, both connected, and nothing under way. *)
Definition kitchen : string := "kitchen".
Definition hallway : string := "hallway".

Definition sockets : Realtime.io := {[kitchen; hallway]}.

Definition idle : Network.state :=
  Network.Build_state
    (<[kitchen := dashboard]> (<[hallway := dashboard]> ∅)) [].

(** The board of a display and a 'chore-changed' message for its second
    chore. *)
Definition board : list Js.object :=
  [[("id", Js.Num 1); ("title", Js.Str "Trash");
    ("status", Js.Str "pending")];
   [("id", Js.Num 2); ("title", Js.Str "Dishes");
    ("status", Js.Str "pending")]].

Definition dishes_done : Js.object :=
  [("id", Js.Num 2); ("status", Js.Str "completed")].

(** Stored tokens of one user, and a refresh that brings a new access token
    only. *)
Definition stored : gmap string Js.object :=
  {["default" := [("access_token", Js.Str "a1");
                  ("refresh_token", Js.Str "r1")]]}.

Definition refreshed : Js.object :=
  [("access_token", Js.Str "a2"); ("expiry_date", Js.Num 1767225600000)].

End DisplayExamples.

(** ** Stores the server can reach *)

Definition chore_ids (t : Sql.tables) : list Z := Sql.c_id <$> Sql.chores t.

(** The primary key of [chores]: no two rows share an id, in the tables and in
    the snapshot of an open transaction. *)
Definition primary_key (db : Sql.conn) : Prop :=
  NoDup (chore_ids (Sql.data db))
  /\ forall j, Sql.journal db = Some j -> NoDup (chore_ids j).

(** The connections that start-up on a new file and calls of the methods
    produce, whatever the calls return. *)
Inductive reachable : Sql.conn -> Prop :=
| reach_init now :
    reachable (Database.init now None)
| reach_insertDefaultConfig now db :
    reachable db -> reachable (Database.insertDefaultConfig now db)
| reach_addFamilyMember now db name color role :
    reachable db -> reachable (Database.addFamilyMember now db name color role).2
| reach_addChore now db chore :
    reachable db -> reachable (Database.addChore now db chore).2
| reach_updateChore now db id updates :
    reachable db -> reachable (Database.updateChore now db id updates).2
| reach_completeChore env now db choreId memberId :
    reachable db ->
    reachable (Database.completeChore env now db choreId memberId).2.

(** ** Orders *)

(** A comparison function that is a total order on its type. *)
Class OrderCompare {A : Type} (cmp : A -> A -> comparison) : Prop := {
  cmp_eq a b : cmp a b = Eq -> a = b;
  cmp_refl a : cmp a a = Eq;
  cmp_antisym a b : cmp b a = CompOpp (cmp a b);
  cmp_lt_trans a b c : cmp a b = Lt -> cmp b c = Lt -> cmp a c = Lt }.

(** The order the listing is documented to have: due date ascending with the
    chores without a due date last, then priority descending as text. *)
Definition due_nulls_last (a b : Sql.value) : comparison :=
  match a, b with
  | Sql.Null, Sql.Null => Eq
  | Sql.Null, _ => Gt
  | _, Sql.Null => Lt
  | _, _ => Sql.compare a b
  end.

Definition documented_compare (a b : Sql.chore_row) : comparison :=
  match due_nulls_last (Sql.c_due_date (Sql.row_chore a))
                       (Sql.c_due_date (Sql.row_chore b)) with
  | Eq => Sql.compare (Sql.c_priority (Sql.row_chore b))
                      (Sql.c_priority (Sql.row_chore a))
  | o => o
  end.

Definition documented_le (a b : Sql.chore_row) : Prop :=
  documented_compare a b <> Gt.

Section Comparisons.

Context {A : Type} (cmp : A -> A -> comparison) `{!OrderCompare cmp}.

Lemma cmp_gt_lt a b : cmp a b = Gt <-> cmp b a = Lt.
Proof.
  rewrite (cmp_antisym (cmp:=cmp) a b).
  destruct (cmp a b); simpl; split; congruence.
Qed.

Lemma cmp_le_total a b : cmp a b <> Gt \/ cmp b a <> Gt.
Proof. rewrite (cmp_antisym (cmp:=cmp) a b). destruct (cmp a b); simpl; auto. Qed.

Lemma cmp_le_trans a b c : cmp a b <> Gt -> cmp b c <> Gt -> cmp a c <> Gt.
Proof.
  intros Hab Hbc Hac.
  destruct (cmp a b) eqn:Eab; [ | | done ].
  - apply cmp_eq in Eab as ->. by apply Hbc.
  - destruct (cmp b c) eqn:Ebc; [ | | done ].
    + apply cmp_eq in Ebc as ->. congruence.
    + pose proof (cmp_lt_trans (cmp:=cmp) _ _ _ Eab Ebc) as Hlt. congruence.
Qed.

End Comparisons.

Lemma ascii_compare_lt_trans a b c :
  Ascii.compare a b = Lt -> Ascii.compare b c = Lt -> Ascii.compare a c = Lt.
Proof. unfold Ascii.compare. rewrite !N.compare_lt_iff. lia. Qed.

Lemma ascii_compare_refl a : Ascii.compare a a = Eq.
Proof. apply N.compare_refl. Qed.

Lemma string_compare_refl s : String.compare s s = Eq.
Proof. induction s as [|x s IH]; simpl; [done|]. by rewrite ascii_compare_refl. Qed.

Lemma string_compare_lt_trans a b c :
  String.compare a b = Lt -> String.compare b c = Lt -> String.compare a c = Lt.
Proof.
  revert b c. induction a as [|x a IH]; intros [|y b] [|z c]; simpl; try done.
  destruct (Ascii.compare x y) eqn:Hxy, (Ascii.compare y z) eqn:Hyz; try done.
  - apply Ascii.compare_eq_iff in Hxy as ->. rewrite Hyz. apply IH.
  - apply Ascii.compare_eq_iff in Hxy as ->. by rewrite Hyz.
  - apply Ascii.compare_eq_iff in Hyz as <-. by rewrite Hxy.
  - by rewrite (ascii_compare_lt_trans _ _ _ Hxy Hyz).
Qed.

#[global] Instance string_order : OrderCompare String.compare.
Proof.
  split.
  - apply String.compare_eq_iff.
  - apply string_compare_refl.
  - intros a b. apply String.compare_antisym.
  - apply string_compare_lt_trans.
Qed.

#[global] Instance value_order : OrderCompare Sql.compare.
Proof.
  split.
  - intros [|x|x] [|y|y]; simpl; try done.
    + intros H. by apply Z.compare_eq in H as ->.
    + intros H. by apply String.compare_eq_iff in H as ->.
  - intros [|x|x]; simpl; [done | apply Z.compare_refl | apply string_compare_refl].
  - intros [|x|x] [|y|y]; simpl; try done.
    + apply Z.compare_antisym.
    + apply String.compare_antisym.
  - intros [|x|x] [|y|y] [|z|z]; simpl; try done.
    + rewrite !Z.compare_lt_iff. lia.
    + apply string_compare_lt_trans.
Qed.

(** The ORDER BY relation is a total preorder on the rows. *)
#[global] Instance order_le_total : Total Sql.order_le.
Proof.
  intros a b. unfold Sql.order_le, Sql.order_compare.
  rewrite (cmp_antisym (cmp:=Sql.compare) (Sql.c_due_date (Sql.row_chore a))).
  rewrite (cmp_antisym (cmp:=Sql.compare) (Sql.c_priority (Sql.row_chore a))).
  destruct (Sql.compare (Sql.c_due_date (Sql.row_chore a)) _); simpl; auto.
  destruct (Sql.compare (Sql.c_priority (Sql.row_chore a)) _); simpl; auto.
Qed.

#[global] Instance order_le_trans : Transitive Sql.order_le.
Proof.
  intros a b c. unfold Sql.order_le, Sql.order_compare.
  destruct (Sql.compare (Sql.c_due_date (Sql.row_chore a))
                        (Sql.c_due_date (Sql.row_chore b))) eqn:Eab; [ | | done ];
  destruct (Sql.compare (Sql.c_due_date (Sql.row_chore b))
                        (Sql.c_due_date (Sql.row_chore c))) eqn:Ebc; try done.
  - apply (cmp_eq (cmp:=Sql.compare)) in Eab as ->. apply (cmp_eq (cmp:=Sql.compare)) in Ebc as ->.
    rewrite (cmp_refl (cmp:=Sql.compare)).
    intros Hab Hbc. by apply (cmp_le_trans Sql.compare _ _ _ Hbc Hab).
  - apply (cmp_eq (cmp:=Sql.compare)) in Eab as ->. by rewrite Ebc.
  - apply (cmp_eq (cmp:=Sql.compare)) in Ebc as <-. by rewrite Eab.
  - by rewrite (cmp_lt_trans (cmp:=Sql.compare) _ _ _ Eab Ebc).
Qed.

(** ** The chore listing ([getChores]) *)

Lemma StronglySorted_lookup {A : Type} (R : relation A) (l : list A) i j a b :
  StronglySorted R l -> (i < j)%nat -> l !! i = Some a -> l !! j = Some b -> R a b.
Proof.
  intros Hl. revert i j. induction Hl as [|x l Hl IH Hx]; intros i j Hij Hi Hj.
  - by rewrite lookup_nil in Hi.
  - destruct j as [|j]; [lia|]. simpl in Hj. destruct i as [|i]; simpl in Hi.
    + injection Hi as <-. rewrite Forall_forall in Hx. apply Hx.
      by eapply list_elem_of_lookup_2.
    + apply (IH i j); [lia|done..].
Qed.

Lemma order_le_spec a b :
  Sql.order_le a b <->
  Sql.compare (Sql.c_due_date (Sql.row_chore a)) (Sql.c_due_date (Sql.row_chore b)) = Lt
  \/ (Sql.c_due_date (Sql.row_chore a) = Sql.c_due_date (Sql.row_chore b)
      /\ Sql.compare (Sql.c_priority (Sql.row_chore a))
                     (Sql.c_priority (Sql.row_chore b)) <> Lt).
Proof.
  unfold Sql.order_le, Sql.order_compare.
  rewrite (cmp_antisym (cmp:=Sql.compare) (Sql.c_priority (Sql.row_chore a))).
  destruct (Sql.compare (Sql.c_due_date (Sql.row_chore a)) _) eqn:Hd.
  - apply (cmp_eq (cmp:=Sql.compare)) in Hd. split.
    + intros H. right. split; [done|]. intros Hp. apply H. by rewrite Hp.
    + intros [|[_ H]]; [done|]. intros Hp. apply H.
      by destruct (Sql.compare (Sql.c_priority (Sql.row_chore a)) _).
  - split; [by left | done].
  - split; [done|]. intros [|[He _]]; [done|].
    rewrite He, (cmp_refl (cmp:=Sql.compare)) in Hd. done.
Qed.

(** Whatever rows the conditions select, the sorter orders them. *)
Lemma select_chores_sorted status assigned_to t :
  StronglySorted Sql.order_le (Sql.select_chores status assigned_to t).
Proof. unfold Sql.select_chores. apply StronglySorted_merge_sort; apply _. Qed.

(** C3, as documented, fails: the listing of a store holding a chore without a
    due date and a chore with one puts the chore without a due date first, so
    it is not sorted in the order that places missing due dates last. *)
Lemma getChores_not_nulls_last :
  exists a b,
    Database.getChores Examples.two_chores Js.Undefined Js.Undefined
      = Database.Resolved [a; b]
    /\ Sql.c_due_date (Sql.row_chore a) = Sql.Null
    /\ Sql.c_due_date (Sql.row_chore b) = Sql.Text "2025-01-10"
    /\ ~ Sorted documented_le [a; b].
Proof.
  eexists _, _. split; [vm_compute; reflexivity|].
  split; [reflexivity|]. split; [reflexivity|].
  intros H. apply Sorted_inv in H as [_ H]. apply HdRel_inv in H.
  by apply H.
Qed.

(** C3, amended: for every store and every pair of filters, [getChores]
    resolves with rows sorted by due date ascending, a missing (NULL) due date
    ordered before every other one, and, among equal due dates, by priority
    descending in the byte-wise order of the text. *)
Theorem getChores_sorted (db : Sql.conn) (status assignedTo : Js.value) :
  exists rows,
    Database.getChores db status assignedTo = Database.Resolved rows
    /\ StronglySorted Sql.order_le rows
    /\ forall i j a b,
         (i < j)%nat -> rows !! i = Some a -> rows !! j = Some b ->
         (Sql.compare (Sql.c_due_date (Sql.row_chore a))
                      (Sql.c_due_date (Sql.row_chore b)) = Lt
          \/ (Sql.c_due_date (Sql.row_chore a) = Sql.c_due_date (Sql.row_chore b)
              /\ Sql.compare (Sql.c_priority (Sql.row_chore a))
                             (Sql.c_priority (Sql.row_chore b)) <> Lt))
         /\ (Sql.c_due_date (Sql.row_chore b) = Sql.Null ->
             Sql.c_due_date (Sql.row_chore a) = Sql.Null).
Proof.
  eexists. split; [reflexivity|].
  pose proof (select_chores_sorted
                (if Js.truthy status then Some (Sql.bind status) else None)
                (if Js.truthy assignedTo then Some (Sql.bind assignedTo) else None)
                (Sql.data db)) as Hs.
  split; [exact Hs|].
  intros i j a b Hij Hi Hj.
  pose proof (StronglySorted_lookup _ _ _ _ _ _ Hs Hij Hi Hj) as Hab.
  apply order_le_spec in Hab. split; [exact Hab|].
  intros Hb. rewrite Hb in Hab. destruct Hab as [Hlt|[He _]]; [|done].
  by destruct (Sql.c_due_date (Sql.row_chore a)).
Qed.

(** ** The completion transaction ([completeChore]) *)

Section CompleteChore.

Import Database.

Lemma rowid_is_true p n : Sql.rowid_is p n = true <-> p = Sql.Integer n.
Proof.
  unfold Sql.rowid_is, Sql.eqb. destruct p; [done | |];
    rewrite bool_decide_eq_true; split; congruence.
Qed.

Lemma select_points_Some p t pts :
  Sql.select_points p t = Some pts ->
  exists c, c ∈ Sql.chores t /\ p = Sql.Integer (Sql.c_id c) /\ Sql.c_points c = pts.
Proof.
  unfold Sql.select_points. intros H.
  destruct (List.find _ _) as [c|] eqn:Hf; [|done].
  apply find_some in Hf as [Hin Hc]. exists c. split; [by apply list_elem_of_In|].
  split; [by apply rowid_is_true | by injection H].
Qed.


Lemma select_points_found t c :
  c ∈ Sql.chores t -> is_Some (Sql.select_points (Sql.Integer (Sql.c_id c)) t).
Proof.
  unfold Sql.select_points. intros Hc.
  destruct (List.find _ _) as [x|] eqn:Hf; [by eexists|].
  apply list_elem_of_In in Hc. apply (find_none _ _ Hf) in Hc.
  assert (Sql.rowid_is (Sql.Integer (Sql.c_id c)) (Sql.c_id c) = true)
    by by apply rowid_is_true.
  congruence.
Qed.

(** An UPDATE whose WHERE clause selects no row leaves the tables as they are. *)
Lemma update_completed_no_row now p t :
  Sql.select_points p t = None -> Sql.update_completed now p t = t.
Proof.
  unfold Sql.select_points, Sql.update_completed. intros H.
  destruct (List.find _ _) eqn:Hf; [done|].
  destruct t as [ms cs ccs cfg s1 s2 s3]; simpl in *. f_equal.
  pose proof (find_none _ _ Hf) as Hn. clear Hf H.
  induction cs as [|c cs IH]; [done|]. simpl.
  rewrite (Hn c) by by left. f_equal. apply IH. intros x Hx. apply Hn. by right.
Qed.



(** The successful path, on a healthy engine: the row is found and the member
    id is not NULL. *)
Lemma completeChore_found now db choreId memberId pts :
  Sql.select_points (Sql.bind choreId) (Sql.data db) = Some pts ->
  Sql.bind memberId <> Sql.Null ->
  exists db' rowid,
    completeChore healthy now db choreId memberId = (Resolved true, db')
    /\ Sql.journal db' = None
    /\ Sql.family_members (Sql.data db') = Sql.family_members (Sql.data db)
    /\ Sql.chores (Sql.data db')
        = Sql.chores (Sql.update_completed now (Sql.bind choreId) (Sql.data db))
    /\ Sql.chore_completions (Sql.data db')
        = Sql.chore_completions (Sql.data db)
          ++ [Sql.Completion rowid (Sql.bind choreId) (Sql.bind memberId)
                             (Sql.Text now) pts].
Proof.
  intros Hsel Hm.
  assert (Sql.bind choreId <> Sql.Null) as Hc.
  { apply select_points_Some in Hsel as (c & _ & -> & _). done. }
  assert (Sql.data (Sql.begin_transaction db) = Sql.data db) as Hb.
  { unfold Sql.begin_transaction. by destruct (Sql.journal db). }
  unfold completeChore, Sql.callback, Sql.insert_completion. simpl.
  rewrite Hb, Hsel. simpl.
  destruct (decide (Sql.bind choreId = Sql.Null)); [done|].
  destruct (decide (Sql.bind memberId = Sql.Null)); [done|].
  eexists _, _. split; [reflexivity|]. by simpl.
Qed.

(** The path of an id that selects no row: the exception leaves the callback,
    the promise is never settled, and neither COMMIT nor ROLLBACK is run. *)
Lemma completeChore_not_found now db choreId memberId :
  Sql.select_points (Sql.bind choreId) (Sql.data db) = None ->
  completeChore healthy now db choreId memberId
  = (Uncaught TypeError,
     Sql.Conn (Sql.data db) (Some (default (Sql.data db) (Sql.journal db)))).
Proof.
  intros Hsel. unfold completeChore, Sql.callback, Sql.begin_transaction. simpl.
  destruct (Sql.journal db) as [j|] eqn:Hj; simpl;
    rewrite Hsel, update_completed_no_row by done; unfold Sql.with_data; simpl;
    by rewrite ?Hj.
Qed.

(** X1: every outcome of a call on an idle connection, whatever failures the
    three statements meet: a rejection leaves the connection as it was, a
    success commits both changes, and the promise stays pending exactly when
    the id selects no row. *)
Lemma completeChore_outcomes env now db choreId memberId :
  Sql.journal db = None ->
  match completeChore env now db choreId memberId with
  | (Rejected _, db') => db' = db
  | (Resolved _, db') =>
      Sql.journal db' = None
      /\ Sql.chores (Sql.data db')
          = Sql.chores (Sql.update_completed now (Sql.bind choreId) (Sql.data db))
      /\ exists r, Sql.chore_completions (Sql.data db')
                   = Sql.chore_completions (Sql.data db) ++ [r]
  | (Uncaught _, db') =>
      Sql.select_points (Sql.bind choreId) (Sql.data db) = None
      /\ Sql.journal db' <> None
  end.
Proof.
  intros Hj. destruct db as [t j]. simpl in Hj. subst j.
  unfold completeChore, Sql.callback, Sql.begin_transaction, Sql.rollback. simpl.
  destruct (select_fault env); [done|].
  destruct (update_fault env); [done|].
  destruct (Sql.select_points (Sql.bind choreId) t) eqn:Hsel; [|done].
  destruct (insert_fault env); [done|].
  unfold Sql.insert_completion.
  destruct (decide (Sql.bind choreId = Sql.Null)); [done|].
  destruct (decide (Sql.bind memberId = Sql.Null)); [done|].
  simpl. eauto.
Qed.





(** C2, the failing input: on the store [two_chores] no chore has id 9999, and
    [completeChore(9999, 1)] neither resolves nor rejects.  The exception
    raised while the INSERT is prepared reaches no caller, and the
    transaction opened by BEGIN is left open: no COMMIT, no ROLLBACK. *)
Theorem completeChore_unknown_chore_not_atomic :
  Sql.journal Examples.two_chores = None
  /\ Sql.select_points (Sql.Integer 9999) (Sql.data Examples.two_chores) = None
  /\ completeChore healthy Examples.t2 Examples.two_chores (Js.Num 9999) (Js.Num 1)
     = (Uncaught TypeError,
        Sql.Conn (Sql.data Examples.two_chores)
                 (Some (Sql.data Examples.two_chores))).
Proof.
  split; [vm_compute; reflexivity|]. split; [vm_compute; reflexivity|].
  rewrite completeChore_not_found; vm_compute; reflexivity.
Qed.

End CompleteChore.

(** ** The routes of a completion request *)

Section CompleteRoute.

Import Database Routes.

(** A request for an id that selects no chore is never answered. *)
Lemma post_complete_unknown_chore now db req :
  Sql.select_points (Sql.bind (Js.parseInt (param_choreId req))) (Sql.data db)
    = None ->
  (post_complete now db req).1 = None.
Proof.
  intros Hsel. unfold post_complete.
  by rewrite (completeChore_not_found now db _ _ Hsel).
Qed.

(** A request that names an existing chore and carries any integer as
    [memberId] is answered 200, whether or not a member has that id. *)
Lemma post_complete_any_member now db req c (memberId : Z) :
  c ∈ Sql.chores (Sql.data db) ->
  Js.parseInt (param_choreId req) = Js.Num (Sql.c_id c) ->
  Js.get (body req) "memberId" = Js.Num memberId ->
  (post_complete now db req).1
  = Some (Build_Response 200 (Message "Chore completed successfully")).
Proof.
  intros Hc Hid Hm. unfold post_complete. rewrite Hid, Hm.
  destruct (select_points_found _ _ Hc) as [pts Hsel].
  destruct (completeChore_found now db (Js.Num (Sql.c_id c)) (Js.Num memberId)
              pts Hsel) as (db' & rowid & -> & _); done.
Qed.

(** C4, the failing inputs: on the store [two_chores], which has no chore and
    no member with id 9999, POST /9999/complete with a valid member gets no
    response at all (so no 500), and POST /1/complete with
    [memberId = 9999] is answered 200 and records a completion for member
    9999. *)
Theorem post_complete_unknown_ids :
  (forall c, c ∈ Sql.chores (Sql.data Examples.two_chores) -> Sql.c_id c <> 9999)
  /\ (forall m, m ∈ Sql.family_members (Sql.data Examples.two_chores) ->
                Sql.m_id m <> 9999)
  /\ (post_complete Examples.t2 Examples.two_chores
        (Build_Request "9999" [] [("memberId", Js.Num 1)])).1 = None
  /\ (post_complete Examples.t2 Examples.two_chores
        (Build_Request "1" [] [("memberId", Js.Num 9999)])).1
     = Some (Build_Response 200 (Message "Chore completed successfully"))
  /\ Sql.cc_member_id
       <$> Sql.chore_completions
             (Sql.data (post_complete Examples.t2 Examples.two_chores
                          (Build_Request "1" [] [("memberId", Js.Num 9999)])).2)
     = [Sql.Integer 9999].
Proof.
  split.
  { intros c Hc. vm_compute in Hc.
    repeat (apply elem_of_cons in Hc as [->|Hc]; [done|]).
    by apply elem_of_nil in Hc. }
  split.
  { intros m Hm. vm_compute in Hm.
    repeat (apply elem_of_cons in Hm as [->|Hm]; [done|]).
    by apply elem_of_nil in Hm. }
  split; [vm_compute; reflexivity|].
  split; vm_compute; reflexivity.
Qed.

End CompleteRoute.

(** ** Creating a chore ([addChore]) *)

Section AddChore.

Import Database.

Lemma existsb_false {A : Type} (f : A -> bool) (l : list A) :
  (forall x, x ∈ l -> f x = false) -> existsb f l = false.
Proof.
  induction l as [|x l IH]; intros H; [done|]. simpl.
  rewrite (H x) by apply list_elem_of_here.
  apply IH. intros y Hy. apply H. by apply list_elem_of_further.
Qed.

Lemma select_members_elem m t :
  m ∈ Sql.select_members t <-> m ∈ Sql.family_members t.
Proof. unfold Sql.select_members. by rewrite merge_sort_Permutation. Qed.

(** A rejected call writes nothing. *)
Lemma addChore_rejected_unchanged now db chore e db' :
  addChore now db chore = (Rejected e, db') -> db' = db.
Proof.
  unfold addChore. destruct (negb _); [congruence|].
  destruct (if Js.truthy _ then _ else _); [congruence|].
  destruct (Sql.insert_chore _ _ _ _ _ _ _ _ _) as [?|[? ?]]; congruence.
Qed.

(** C5, as stated, fails: [assigned_to = 0] is set and matches no member of
    the seeded store, yet the chore is created and stored with that
    assignee. *)
Lemma addChore_zero_assignee_accepted :
  (forall m, m ∈ Sql.family_members (Sql.data Examples.seeded) -> Sql.m_id m <> 0)
  /\ Sql.chores (Sql.data Examples.seeded) = []
  /\ exists db' c,
       addChore Examples.t1 Examples.seeded
                [("title", Js.Str "Sweep"); ("assigned_to", Js.Num 0)]
         = (Resolved 1, db')
       /\ Sql.chores (Sql.data db') = [c]
       /\ Sql.c_assigned_to c = Sql.Integer 0.
Proof.
  split.
  { intros m Hm. vm_compute in Hm.
    repeat (apply elem_of_cons in Hm as [->|Hm]; [done|]).
    by apply elem_of_nil in Hm. }
  split; [vm_compute; reflexivity|].
  eexists _, _. split; [vm_compute; reflexivity|].
  split; reflexivity.
Qed.

(** C5, amended: a call whose title is falsy (missing, null, empty) is
    rejected with the title error; a call with a title whose assigned_to is
    truthy (so neither missing, null, 0 nor empty) and strictly equal to no
    member id is rejected with the missing-member error; either way the
    connection, and so the chore list, is as before. *)
Theorem addChore_rejects now db chore :
  Js.truthy (Js.get chore "title") = false
  \/ (Js.truthy (Js.get chore "assigned_to") = true
      /\ forall m, m ∈ Sql.family_members (Sql.data db) ->
                   Js.strict_eq (Js.Num (Sql.m_id m)) (Js.get chore "assigned_to")
                   = false) ->
  addChore now db chore
  = (Rejected (if Js.truthy (Js.get chore "title")
               then MemberDoesNotExist (Js.get chore "assigned_to")
               else TitleRequired),
     db)
  /\ getChores (addChore now db chore).2 Js.Undefined Js.Undefined
     = getChores db Js.Undefined Js.Undefined.
Proof.
  intros H.
  assert (addChore now db chore
          = (Rejected (if Js.truthy (Js.get chore "title")
                       then MemberDoesNotExist (Js.get chore "assigned_to")
                       else TitleRequired), db)) as Hrun.
  { unfold addChore.
    destruct (Js.truthy (Js.get chore "title")) eqn:Ht; simpl; [|done].
    destruct H as [|[Ha Hm]]; [done|]. rewrite Ha.
    unfold getFamilyMembers. rewrite existsb_false; [done|].
    intros m Hin. apply Hm. by apply select_members_elem. }
  split; [exact Hrun|]. by rewrite Hrun.
Qed.

(** The theorem at a chore assigned to member 9999 on the seeded store. *)
Lemma addChore_rejects_witness :
  addChore Examples.t1 Examples.seeded
           [("title", Js.Str "Sweep"); ("assigned_to", Js.Num 9999)]
  = (Rejected (MemberDoesNotExist (Js.Num 9999)), Examples.seeded)
  /\ getChores
       (addChore Examples.t1 Examples.seeded
                 [("title", Js.Str "Sweep"); ("assigned_to", Js.Num 9999)]).2
       Js.Undefined Js.Undefined
     = getChores Examples.seeded Js.Undefined Js.Undefined.
Proof.
  apply (addChore_rejects Examples.t1 Examples.seeded
           [("title", Js.Str "Sweep"); ("assigned_to", Js.Num 9999)]).
  right. split; [reflexivity|].
  intros m Hm. vm_compute in Hm.
  repeat (apply elem_of_cons in Hm as [->|Hm]; [reflexivity|]).
  by apply elem_of_nil in Hm.
Defined.

End AddChore.

(** ** Updating a chore ([updateChore], PUT /:choreId) *)

Section UpdateChore.

Import Database Routes.






End UpdateChore.

(** ** Start-up seeding ([insertDefaultConfig]) *)

Section Seeding.

Import Database.

Lemma insert_or_ignore_present now k v t :
  is_Some (Sql.display_config t !! k) ->
  Sql.insert_or_ignore_config now k v t = t.
Proof.
  intros [x Hx]. unfold Sql.insert_or_ignore_config.
  destruct (decide _); [done|]. by rewrite Hx.
Qed.

Lemma insert_or_ignore_keeps now k v t k' :
  is_Some (Sql.display_config t !! k') ->
  is_Some (Sql.display_config (Sql.insert_or_ignore_config now k v t) !! k').
Proof.
  intros H. unfold Sql.insert_or_ignore_config.
  destruct (decide _); [done|].
  destruct (Sql.display_config t !! k) eqn:Hk; [done|]. simpl.
  destruct (decide (k = k')) as [->|Hne].
  - rewrite lookup_insert_eq. by eexists.
  - by rewrite lookup_insert_ne.
Qed.

Lemma insert_or_ignore_adds now k s t :
  is_Some (Sql.display_config
             (Sql.insert_or_ignore_config now k (Sql.Text s) t) !! k).
Proof.
  unfold Sql.insert_or_ignore_config. simpl.
  destruct (Sql.display_config t !! k) eqn:Hk; [by rewrite Hk|]. simpl.
  rewrite lookup_insert_eq. by eexists.
Qed.

Lemma insert_or_ignore_members now k v t :
  Sql.family_members (Sql.insert_or_ignore_config now k v t)
  = Sql.family_members t.
Proof.
  unfold Sql.insert_or_ignore_config.
  destruct (decide _); [done|]. by destruct (_ !! _).
Qed.

Lemma seed_config_cons now kv l t :
  seed_config now (kv :: l) t
  = seed_config now l
      (Sql.insert_or_ignore_config now kv.1 (Sql.Text kv.2) t).
Proof. reflexivity. Qed.

Lemma seed_members_cons now m l t :
  seed_members now (m :: l) t
  = seed_members now l
      (match Sql.insert_member now (Sql.Text m.1.1) (Sql.Text m.1.2)
               (Sql.Text m.2) t with
       | inr (_, t') => t'
       | inl _ => t
       end).
Proof. reflexivity. Qed.

Lemma seed_config_present now l t :
  (forall kv, kv ∈ l -> is_Some (Sql.display_config t !! kv.1)) ->
  seed_config now l t = t.
Proof.
  revert t. induction l as [|kv l IH]; intros t H; [done|]. rewrite seed_config_cons.
  rewrite insert_or_ignore_present by (apply H, list_elem_of_here).
  apply IH. intros kv' Hkv'. apply H. by apply list_elem_of_further.
Qed.

Lemma seed_config_keeps now l t k :
  is_Some (Sql.display_config t !! k) ->
  is_Some (Sql.display_config (seed_config now l t) !! k).
Proof.
  revert t. induction l as [|kv l IH]; intros t H; [done|]. rewrite seed_config_cons.
  by apply IH, insert_or_ignore_keeps.
Qed.

Lemma seed_config_adds now l t kv :
  kv ∈ l -> is_Some (Sql.display_config (seed_config now l t) !! kv.1).
Proof.
  revert t. induction l as [|kv' l IH]; intros t H.
  - by apply elem_of_nil in H.
  - rewrite seed_config_cons. apply elem_of_cons in H as [->|H]; [|by apply IH].
    apply seed_config_keeps, insert_or_ignore_adds.
Qed.

Lemma seed_config_members now l t :
  Sql.family_members (seed_config now l t) = Sql.family_members t.
Proof.
  revert t. induction l as [|kv l IH]; intros t; [done|]. rewrite seed_config_cons.
  by rewrite IH, insert_or_ignore_members.
Qed.

Lemma insert_member_cases now name color role t :
  match Sql.insert_member now name color role t with
  | inr (_, t') =>
      Sql.display_config t' = Sql.display_config t
      /\ exists m, Sql.family_members t' = Sql.family_members t ++ [m]
  | inl _ => Sql.family_members t <> []
             \/ name = Sql.Null
  end.
Proof.
  unfold Sql.insert_member. destruct (decide _); [by right|].
  destruct (existsb _ _) eqn:He; [|by eauto].
  left. intros Hnil. by rewrite Hnil in He.
Qed.

Lemma seed_members_config now l t :
  Sql.display_config (seed_members now l t) = Sql.display_config t.
Proof.
  revert t. induction l as [|m l IH]; intros t; [done|]. rewrite seed_members_cons, IH.
  pose proof (insert_member_cases now (Sql.Text m.1.1) (Sql.Text m.1.2)
                (Sql.Text m.2) t) as H.
  destruct (Sql.insert_member _ _ _ _ _) as [?|[? ?]]; [done|]. by destruct H.
Qed.

Lemma seed_members_nonempty now l t :
  Sql.family_members t <> [] \/ l <> [] ->
  Sql.family_members (seed_members now l t) <> [].
Proof.
  revert t. induction l as [|m l IH]; intros t H.
  - by destruct H.
  - rewrite seed_members_cons. apply IH. left.
    pose proof (insert_member_cases now (Sql.Text m.1.1) (Sql.Text m.1.2)
                  (Sql.Text m.2) t) as Hc.
    destruct (Sql.insert_member _ _ _ _ _) as [?|[? t']].
    + by destruct Hc.
    + destruct Hc as [_ [x ->]]. by destruct (Sql.family_members t).
Qed.

(** A store that has a member and every default key is left as it is. *)
Lemma insertDefaultConfig_populated now db :
  Sql.family_members (Sql.data db) <> [] ->
  (forall kv, kv ∈ defaultConfigs ->
              is_Some (Sql.display_config (Sql.data db) !! kv.1)) ->
  insertDefaultConfig now db = db.
Proof.
  intros Hm Hk. unfold insertDefaultConfig.
  rewrite seed_config_present by done.
  unfold Sql.count_members. destruct db as [t j]; simpl in *.
  by destruct (Sql.family_members t).
Qed.

(** The two passes on any lists of defaults: afterwards the store has a member
    and every key of the configuration list. *)
Lemma seed_populates now cfgs ms t :
  ms <> [] ->
  let t1 := seed_config now cfgs t in
  let t2 := if Sql.count_members t1 =? 0 then seed_members now ms t1 else t1 in
  Sql.family_members t2 <> []
  /\ forall kv, kv ∈ cfgs -> is_Some (Sql.display_config t2 !! kv.1).
Proof.
  intros Hms t1 t2. subst t2.
  destruct (Sql.count_members t1 =? 0) eqn:Hc.
  - split; [by apply seed_members_nonempty; right|].
    intros kv Hkv. rewrite seed_members_config. by apply seed_config_adds.
  - split; [|intros kv Hkv; by apply seed_config_adds].
    unfold Sql.count_members in Hc. intros Hnil. by rewrite Hnil in Hc.
Qed.

Lemma insertDefaultConfig_data now db :
  Sql.data (insertDefaultConfig now db)
  = if Sql.count_members (seed_config now defaultConfigs (Sql.data db)) =? 0
    then seed_members now defaultMembers
           (seed_config now defaultConfigs (Sql.data db))
    else seed_config now defaultConfigs (Sql.data db).
Proof. unfold insertDefaultConfig. by destruct (_ =? 0). Qed.

(** After the seed the store has a member and every default key. *)
Lemma insertDefaultConfig_populates now db :
  Sql.family_members (Sql.data (insertDefaultConfig now db)) <> []
  /\ forall kv, kv ∈ defaultConfigs ->
       is_Some (Sql.display_config (Sql.data (insertDefaultConfig now db)) !! kv.1).
Proof.
  rewrite insertDefaultConfig_data.
  apply (seed_populates now defaultConfigs defaultMembers (Sql.data db)).
  discriminate.
Qed.

(** The members of a database file that did not exist, after start-up. *)
Lemma init_fresh_members now :
  Sql.m_name <$> Sql.family_members (Sql.data (init now None))
  = [Sql.Text "Mom"; Sql.Text "Dad"; Sql.Text "Child 1"; Sql.Text "Child 2"].
Proof. vm_compute. reflexivity. Qed.

(** C7: start-up on a database file that did not exist leaves exactly the four
    default members and exactly seven configuration rows, one per default key
    with its default value; on a store that already has a member and the
    default keys, and in particular on any store that has been through
    start-up, it inserts nothing. *)
Theorem insertDefaultConfig_seed (now : string) :
  Sql.m_name <$> Sql.family_members (Sql.data (init now None))
    = [Sql.Text "Mom"; Sql.Text "Dad"; Sql.Text "Child 1"; Sql.Text "Child 2"]
  /\ size (Sql.display_config (Sql.data (init now None))) = 7%nat
  /\ Forall (fun kv => Sql.display_config (Sql.data (init now None)) !! kv.1
                       = Some (Sql.Config (Sql.Text kv.2) (Sql.Text now)))
            defaultConfigs
  /\ (forall db,
        Sql.family_members (Sql.data db) <> [] ->
        (forall kv, kv ∈ defaultConfigs ->
                    is_Some (Sql.display_config (Sql.data db) !! kv.1)) ->
        insertDefaultConfig now db = db)
  /\ (forall now0 file,
        insertDefaultConfig now (init now0 file) = init now0 file).
Proof.
  split; [apply init_fresh_members|].
  split; [vm_compute; reflexivity|].
  split; [repeat (constructor; [vm_compute; reflexivity|]); constructor|].
  split; [apply insertDefaultConfig_populated|].
  intros now0 file. unfold init.
  destruct (insertDefaultConfig_populates now0
              (Sql.Conn (default Sql.empty file) None)) as [Hm Hk].
  by apply insertDefaultConfig_populated.
Qed.

End Seeding.

Section AddChoreDefaults.

Import Database.

(** When [addChore] resolves: the title is truthy and the assignee is falsy
    or the id of a member. *)
Lemma addChore_resolves now db chore :
  Js.truthy (Js.get chore "title") = true ->
  Js.truthy (Js.get chore "assigned_to") = false
  \/ (exists m, m ∈ Sql.family_members (Sql.data db)
                /\ Js.strict_eq (Js.Num (Sql.m_id m)) (Js.get chore "assigned_to")
                   = true) ->
  exists id db', addChore now db chore = (Resolved id, db').
Proof.
  intros Ht Ha.
  assert (Sql.bind (Js.get chore "title") <> Sql.Null) as Hn.
  { by destruct (Js.get chore "title"). }
  unfold addChore, getFamilyMembers, Sql.insert_chore. rewrite Ht. cbn [negb].
  destruct Ha as [->|(m & Hm & Heq)].
  - destruct (decide _); [done|]. by eexists _, _.
  - assert (existsb (fun m => Js.strict_eq (Js.Num (Sql.m_id m))
                                (Js.get chore "assigned_to"))
                    (Sql.select_members (Sql.data db)) = true) as ->.
    { apply existsb_exists. exists m. split; [|done].
      by apply list_elem_of_In, select_members_elem. }
    destruct (decide _); [done|].
    destruct (Js.truthy (Js.get chore "assigned_to")); by eexists _, _.
Qed.



End AddChoreDefaults.

(** ** The real-time channel *)

Section Channel.

Import Realtime.

Context {P : Type}.

Lemma elem_of_emit (server : io) name (payload : P) id msg :
  (id, msg) ∈ emit server name payload <-> id ∈ server /\ msg = (name, payload).
Proof.
  unfold emit. rewrite list_elem_of_fmap. split.
  - intros (x & [= -> ->] & Hx). by apply elem_of_elements in Hx.
  - intros [Hid ->]. exists id. by rewrite elem_of_elements.
Qed.

Lemma NoDup_emit (server : io) name (payload : P) :
  NoDup (emit server name payload).
Proof.
  unfold emit. apply NoDup_fmap_2; [|apply NoDup_elements].
  by intros x y [= ->].
Qed.

Lemma on_event_received (server : io) socket e (payload : P) :
  on_event server socket (received e) payload = emit server (announced e) payload.
Proof. by destruct e. Qed.

(** C8: an event of one of the three kinds, from any socket, is sent once to
    every connected socket and to no one else, under the announced name and
    with the payload as received; a sender that is connected is among the
    recipients; a socket that has just connected is one, a socket that has
    disconnected is not. *)
Theorem on_event_broadcasts (server : io) (socket : string) (e : event)
  (payload : P) :
  (forall id msg,
     (id, msg) ∈ on_event server socket (received e) payload
     <-> id ∈ server /\ msg = (announced e, payload))
  /\ NoDup (on_event server socket (received e) payload)
  /\ (socket ∈ server ->
      (socket, (announced e, payload))
        ∈ on_event server socket (received e) payload)
  /\ (forall other,
        (other, (announced e, payload))
          ∈ on_event (connect server other) socket (received e) payload)
  /\ (forall other msg,
        (other, msg)
          ∉ on_event (disconnect server other) socket (received e) payload).
Proof.
  rewrite !on_event_received. split; [apply elem_of_emit|].
  split; [apply NoDup_emit|]. split; [|split].
  - intros Hs. by apply elem_of_emit.
  - intros other. rewrite on_event_received. apply elem_of_emit. split; [|done].
    unfold connect. set_solver.
  - intros other msg. rewrite on_event_received.
    intros [H _]%elem_of_emit. unfold disconnect in H. set_solver.
Qed.

End Channel.

(** ** The primary key of [chores] on reachable stores *)

Section PrimaryKey.

Import Database.

Lemma foldr_max_bound (l : list Z) x : x ∈ l -> x <= foldr Z.max 0 l.
Proof.
  induction l as [|y l IH]; intros H; [by apply elem_of_nil in H|]. simpl.
  apply elem_of_cons in H as [->|H]; [lia|]. specialize (IH H). lia.
Qed.

Lemma next_rowid_fresh seq (l : list Z) : Sql.next_rowid seq l ∉ l.
Proof.
  intros H. apply foldr_max_bound in H. unfold Sql.next_rowid in H. lia.
Qed.

Lemma insert_chore_ids now v1 v2 v3 v4 v5 v6 v7 t id t' :
  Sql.insert_chore now v1 v2 v3 v4 v5 v6 v7 t = inr (id, t') ->
  NoDup (chore_ids t) -> NoDup (chore_ids t').
Proof.
  unfold Sql.insert_chore, chore_ids. destruct (decide _); [done|].
  intros [= <- <-] Hnd. simpl. rewrite fmap_app. apply NoDup_app.
  split; [done|]. split; [|apply NoDup_singleton].
  intros x Hx Hin. apply list_elem_of_singleton in Hin as ->.
  by apply next_rowid_fresh in Hx.
Qed.

Lemma update_completed_ids now p t :
  chore_ids (Sql.update_completed now p t) = chore_ids t.
Proof.
  unfold chore_ids. simpl. rewrite <- list_fmap_compose.
  apply list_fmap_ext. intros i c _. simpl. by destruct (Sql.rowid_is _ _).
Qed.

Lemma update_rows_ids sets id seen rest rows n :
  Sql.update_rows sets id seen rest = inr (rows, n) ->
  NoDup (Sql.c_id <$> (seen ++ rest)) -> NoDup (Sql.c_id <$> rows).
Proof.
  revert seen rows n. induction rest as [|c rest IH]; intros seen rows n; simpl.
  - rewrite app_nil_r. by intros [= <- _].
  - destruct (Sql.rowid_is id (Sql.c_id c)).
    + destruct (Sql.assign sets c) as [|c']; [done|].
      destruct (decide _); [done|].
      destruct (existsb _ _) eqn:He; [done|].
      destruct (Sql.update_rows _ _ _ _) as [|[rows' n']] eqn:Hrec; [done|].
      intros [= <- _] Hnd. apply (IH _ _ _ Hrec).
      rewrite <- app_assoc. simpl.
      rewrite fmap_app, fmap_cons in Hnd |- *.
      apply NoDup_app in Hnd as (Hs & Hsr & Hr).
      apply NoDup_cons in Hr as [_ Hr].
      assert (Sql.c_id c' ∉ Sql.c_id <$> (seen ++ rest)) as Hfresh.
      { intros Hin. apply list_elem_of_fmap in Hin as (o & Ho & Hin).
        assert (existsb (fun o => Sql.c_id o =? Sql.c_id c') (seen ++ rest) = true);
          [|congruence].
        apply existsb_exists. exists o. split; [by apply list_elem_of_In|].
        apply Z.eqb_eq. congruence. }
      rewrite fmap_app in Hfresh. apply not_elem_of_app in Hfresh as [Hf1 Hf2].
      apply NoDup_app. split; [done|]. split.
      * intros x Hx Hin. apply elem_of_cons in Hin as [->|Hin]; [done|].
        apply (Hsr x Hx). by apply list_elem_of_further.
      * by apply NoDup_cons.
    + intros Hrec Hnd. apply (IH _ _ _ Hrec). by rewrite <- app_assoc.
Qed.

Lemma update_chores_ids now ks vs id t n t' :
  Sql.update_chores now ks vs id t = inr (n, t') ->
  NoDup (chore_ids t) -> NoDup (chore_ids t').
Proof.
  unfold Sql.update_chores, chore_ids. destruct (Sql.prepare_set ks); [done|].
  destruct (Sql.update_rows _ _ _ _) as [|[rows m]] eqn:Hrows; [done|].
  intros [= _ <-] Hnd. simpl. by apply (update_rows_ids _ _ _ _ _ _ Hrows).
Qed.

Lemma insert_member_chores now v1 v2 v3 t id t' :
  Sql.insert_member now v1 v2 v3 t = inr (id, t') -> Sql.chores t' = Sql.chores t.
Proof.
  unfold Sql.insert_member. destruct (decide _); [done|].
  destruct (existsb _ _); [done|]. by intros [= _ <-].
Qed.

Lemma insert_completion_chores now v1 v2 v3 t id t' :
  Sql.insert_completion now v1 v2 v3 t = inr (id, t') ->
  Sql.chores t' = Sql.chores t.
Proof.
  unfold Sql.insert_completion. destruct (decide _); [done|].
  destruct (decide _); [done|]. by intros [= _ <-].
Qed.

Lemma seed_config_chores now l t :
  Sql.chores (seed_config now l t) = Sql.chores t.
Proof.
  revert t. induction l as [|kv l IH]; intros t; [done|]. rewrite seed_config_cons, IH.
  unfold Sql.insert_or_ignore_config.
  destruct (decide _); [done|]. by destruct (_ !! _).
Qed.

Lemma seed_members_chores now l t :
  Sql.chores (seed_members now l t) = Sql.chores t.
Proof.
  revert t. induction l as [|m l IH]; intros t; [done|]. rewrite seed_members_cons, IH.
  destruct (Sql.insert_member _ _ _ _ _) as [|[id t']] eqn:Hi; [done|].
  by apply insert_member_chores in Hi.
Qed.

Lemma insertDefaultConfig_chores now db :
  Sql.chores (Sql.data (insertDefaultConfig now db)) = Sql.chores (Sql.data db)
  /\ Sql.journal (insertDefaultConfig now db) = Sql.journal db.
Proof.
  rewrite insertDefaultConfig_data. split.
  - destruct (_ =? 0); by rewrite ?seed_members_chores, seed_config_chores.
  - unfold insertDefaultConfig. by destruct (_ =? 0).
Qed.

Lemma primary_key_with_data db t :
  primary_key db -> NoDup (chore_ids t) -> primary_key (Sql.with_data db t).
Proof. intros [_ Hj] Ht. by split. Qed.

Lemma begin_primary_key db :
  primary_key db -> primary_key (Sql.begin_transaction db).
Proof.
  intros [Hd Hj]. unfold Sql.begin_transaction.
  destruct (Sql.journal db) as [t|] eqn:E.
  - split; [done|]. intros j Hjj. rewrite E in Hjj. by apply Hj.
  - split; [done|]. by intros j [= <-].
Qed.

Lemma rollback_primary_key db :
  primary_key db -> primary_key (Sql.rollback db).
Proof.
  intros [Hd Hj]. unfold Sql.rollback.
  destruct (Sql.journal db) as [t|] eqn:E.
  - split; [by apply Hj|done].
  - split; [done|]. intros j Hjj. by rewrite E in Hjj.
Qed.

Lemma completeChore_primary_key env now db choreId memberId :
  primary_key db -> primary_key (completeChore env now db choreId memberId).2.
Proof.
  intros H. apply begin_primary_key in H. unfold completeChore, Sql.callback.
  set (db0 := Sql.begin_transaction db) in *.
  destruct (select_fault env); [by apply rollback_primary_key|].
  destruct (update_fault env); [by apply rollback_primary_key|].
  set (t1 := Sql.update_completed now (Sql.bind choreId) (Sql.data db0)).
  assert (primary_key (Sql.with_data db0 t1)) as H1.
  { apply primary_key_with_data; [done|]. subst t1.
    rewrite update_completed_ids. by destruct H. }
  destruct (Sql.select_points _ _); [|done].
  destruct (match insert_fault env with Some e => _ | None => _ end)
    as [|[id t2]] eqn:Hi; [by apply rollback_primary_key|].
  destruct (insert_fault env); [done|].
  apply insert_completion_chores in Hi.
  split; [|done]. unfold chore_ids. cbn [Sql.data Sql.commit Sql.with_data snd].
  rewrite Hi. by destruct H1.
Qed.

(** X2: on every reachable connection the ids of [chores] are pairwise
    distinct. *)
Lemma reachable_primary_key db : reachable db -> primary_key db.
Proof.
  induction 1 as [now|now db _ IH|now db name color role _ IH|now db chore _ IH
                  |now db id updates _ IH|env now db choreId memberId _ IH].
  - destruct (insertDefaultConfig_chores now (Sql.Conn Sql.empty None)) as [Hc Hj].
    unfold init. cbn [default]. split.
    + unfold chore_ids. rewrite Hc. apply NoDup_nil_2.
    + intros j. by rewrite Hj.
  - destruct (insertDefaultConfig_chores now db) as [Hc Hj]. destruct IH as [Hd Hj'].
    split; [unfold chore_ids; by rewrite Hc | by rewrite Hj].
  - unfold addFamilyMember.
    destruct (Sql.insert_member _ _ _ _ _) as [|[id t']] eqn:Hi; [done|].
    apply primary_key_with_data; [done|]. unfold chore_ids.
    rewrite (insert_member_chores _ _ _ _ _ _ _ Hi). by destruct IH.
  - unfold addChore. destruct (negb _); [done|].
    destruct (if Js.truthy _ then _ else _); [done|].
    destruct (Sql.insert_chore _ _ _ _ _ _ _ _ _) as [|[id t']] eqn:Hi; [done|].
    apply primary_key_with_data; [done|].
    apply (insert_chore_ids _ _ _ _ _ _ _ _ _ _ _ Hi). by destruct IH.
  - unfold updateChore.
    destruct (Sql.update_chores _ _ _ _ _) as [|[n t']] eqn:Hu; [done|].
    apply primary_key_with_data; [done|].
    apply (update_chores_ids _ _ _ _ _ _ _ Hu). by destruct IH.
  - by apply completeChore_primary_key.
Qed.

End PrimaryKey.

(** ** Further properties of the store *)

Section StoreExtras.

Import Database.

(** X1 at a call whose INSERT meets an I/O failure on the store
    [two_chores]. *)
Lemma completeChore_outcomes_witness :
  match completeChore (Build_Faults None None (Some Sql.IoErr)) Examples.t2
          Examples.two_chores (Js.Num 1) (Js.Num 1) with
  | (Rejected _, db') => db' = Examples.two_chores
  | (Resolved _, db') =>
      Sql.journal db' = None
      /\ Sql.chores (Sql.data db')
          = Sql.chores (Sql.update_completed Examples.t2 (Sql.bind (Js.Num 1))
                          (Sql.data Examples.two_chores))
      /\ exists r, Sql.chore_completions (Sql.data db')
                   = Sql.chore_completions (Sql.data Examples.two_chores) ++ [r]
  | (Uncaught _, db') =>
      Sql.select_points (Sql.bind (Js.Num 1)) (Sql.data Examples.two_chores)
        = None
      /\ Sql.journal db' <> None
  end.
Proof.
  apply (completeChore_outcomes (Build_Faults None None (Some Sql.IoErr))
           Examples.t2 Examples.two_chores (Js.Num 1) (Js.Num 1)).
  vm_compute. reflexivity.
Defined.

(** X2 at the store [two_chores]. *)
Lemma reachable_primary_key_witness : primary_key Examples.two_chores.
Proof.
  apply (reachable_primary_key Examples.two_chores).
  unfold Examples.two_chores, Examples.seeded.
  apply reach_addChore, reach_addChore, reach_init.
Defined.


Lemma eqb_true a b : Sql.eqb a b = true <-> a = b /\ b <> Sql.Null.
Proof.
  unfold Sql.eqb. destruct a, b; try rewrite bool_decide_eq_true;
    split; try done; try (by intros []); by intros ->.
Qed.





#[global] Instance member_name_le_total : Total Sql.member_name_le.
Proof. intros a b. apply (cmp_le_total Sql.compare). Qed.

#[global] Instance member_name_le_trans : Transitive Sql.member_name_le.
Proof. intros a b c. apply (cmp_le_trans Sql.compare). Qed.


End StoreExtras.

(** ** The configuration table *)

Section ConfigExtras.

Import Database.

(** X5: [setConfig] is an upsert that [getConfig] reads back.  A text value
    written under a key is what [getConfig] returns for that key, every other
    key reads as before, writing the key again replaces the value without
    adding a row, and a null or undefined value is rejected and leaves the
    store as it was. *)
Theorem setConfig_getConfig (now : string) (db : Sql.conn) (key s : string) :
  exists db',
    setConfig now db key (Js.Str s) = (Resolved tt, db')
    /\ getConfig db' key = Resolved (Js.Str s)
    /\ (forall k, k <> key -> getConfig db' k = getConfig db k)
    /\ (forall now2 s2,
          getConfig (setConfig now2 db' key (Js.Str s2)).2 key
            = Resolved (Js.Str s2)
          /\ size (Sql.display_config
                     (Sql.data (setConfig now2 db' key (Js.Str s2)).2))
             = size (Sql.display_config (Sql.data db')))
    /\ (forall v, Sql.bind v = Sql.Null ->
          setConfig now db key v
          = (Rejected (SqliteError (Sql.NotNull "display_config.value")), db)).
Proof.
  eexists. split; [reflexivity|]. split; [|split; [|split]].
  - unfold getConfig. simpl. by rewrite lookup_insert_eq.
  - intros k Hk. unfold getConfig. simpl. by rewrite lookup_insert_ne.
  - intros now2 s2. unfold getConfig. simpl. rewrite lookup_insert_eq.
    split; [done|]. rewrite insert_insert_eq.
    destruct (Sql.display_config (Sql.data db) !! key) eqn:Hk.
    + by rewrite !map_size_insert_Some.
    + by rewrite !map_size_insert_None.
  - intros v Hv. unfold setConfig, replace_config. by rewrite Hv.
Qed.

(** The default value of a key, if it is one of the defaults. *)
Lemma seed_config_lookup now l t k :
  Sql.display_config (seed_config now l t) !! k
  = match Sql.display_config t !! k with
    | Some row => Some row
    | None =>
        (fun kv : string * string => Sql.Config (Sql.Text kv.2) (Sql.Text now))
          <$> List.find (fun kv : string * string => String.eqb kv.1 k) l
    end.
Proof.
  revert t. induction l as [|[k0 v0] l IH]; intros t.
  - simpl. by destruct (_ !! _).
  - rewrite seed_config_cons, IH. unfold Sql.insert_or_ignore_config.
    cbn [fst snd List.find]. destruct (decide _); [done|].
    destruct (Sql.display_config t !! k0) eqn:Hkv.
    + destruct (Sql.display_config t !! k) eqn:Hk; [done|].
      destruct (String.eqb_spec k0 k) as [->|]; [congruence|done].
    + cbn [Sql.display_config]. destruct (String.eqb_spec k0 k) as [->|Hne].
      * by rewrite lookup_insert_eq, Hkv.
      * by rewrite lookup_insert_ne.
Qed.

(** X6: the seed never overwrites.  On any store [insertDefaultConfig] keeps
    every configuration row as it is and gives each missing default key its
    default value and no other key a value; it leaves chores and completion
    records alone, and it leaves the members alone when there is one. *)
Theorem insertDefaultConfig_keeps (now : string) (db : Sql.conn) :
  (forall k,
     Sql.display_config (Sql.data (insertDefaultConfig now db)) !! k
     = match Sql.display_config (Sql.data db) !! k with
       | Some row => Some row
       | None =>
           (fun kv : string * string =>
              Sql.Config (Sql.Text kv.2) (Sql.Text now))
             <$> List.find (fun kv : string * string => String.eqb kv.1 k)
                           defaultConfigs
       end)
  /\ Sql.chores (Sql.data (insertDefaultConfig now db))
     = Sql.chores (Sql.data db)
  /\ Sql.chore_completions (Sql.data (insertDefaultConfig now db))
     = Sql.chore_completions (Sql.data db)
  /\ (Sql.family_members (Sql.data db) <> [] ->
      Sql.family_members (Sql.data (insertDefaultConfig now db))
      = Sql.family_members (Sql.data db)).
Proof.
  split; [|split; [|split]].
  - intros k. rewrite insertDefaultConfig_data.
    destruct (_ =? 0); rewrite ?seed_members_config; apply seed_config_lookup.
  - apply insertDefaultConfig_chores.
  - rewrite insertDefaultConfig_data.
    assert (forall l t, Sql.chore_completions (seed_config now l t)
                        = Sql.chore_completions t) as Hc.
    { intros l. induction l as [|kv l IH]; intros t; [done|].
      rewrite seed_config_cons, IH. unfold Sql.insert_or_ignore_config.
      destruct (decide _); [done|]. by destruct (_ !! _). }
    assert (forall l t, Sql.chore_completions (seed_members now l t)
                        = Sql.chore_completions t) as Hm.
    { intros l. induction l as [|m l IH]; intros t; [done|].
      rewrite seed_members_cons, IH. unfold Sql.insert_member.
      destruct (decide _); [done|]. by destruct (existsb _ _). }
    destruct (_ =? 0); by rewrite ?Hm, Hc.
  - intros Hne. rewrite insertDefaultConfig_data.
    unfold Sql.count_members. rewrite seed_config_members.
    destruct (Sql.family_members (Sql.data db)) as [|m l] eqn:E; [done|].
    destruct (Z.eqb_spec (Z.of_nat (length (m :: l))) 0) as [H0|_];
      [simpl in H0; lia|].
    by rewrite seed_config_members.
Qed.

(** X7: after start-up on a new database file [getConfig] returns the default
    value for each of the seven default keys and null for every other key. *)
Theorem getConfig_defaults (now : string) (key : string) :
  getConfig (init now None) key
  = Resolved match List.find (fun kv : string * string => String.eqb kv.1 key)
                         defaultConfigs with
             | Some kv => Js.Str kv.2
             | None => Js.Null
             end.
Proof.
  unfold getConfig, init.
  destruct (insertDefaultConfig_keeps now (Sql.Conn Sql.empty None)) as [-> _].
  cbn [default Sql.data Sql.empty Sql.display_config]. rewrite lookup_empty.
  by destruct (List.find (fun kv : string * string => String.eqb kv.1 key)
                 defaultConfigs).
Qed.

End ConfigExtras.

(** ** Family members *)

Section MemberExtras.

Import Database MemberRoutes.

Lemma existsb_name_true ms name :
  existsb (fun m => Sql.eqb (Sql.m_name m) name) ms = true
  <-> exists m, m ∈ ms /\ Sql.m_name m = name /\ name <> Sql.Null.
Proof.
  rewrite existsb_exists. split.
  - intros (m & Hm & He). apply eqb_true in He. exists m.
    by rewrite list_elem_of_In.
  - intros (m & Hm & He). exists m. rewrite <- list_elem_of_In.
    split; [done|]. by apply eqb_true.
Qed.

(** X8: a member without a name, or with the name of an existing member, is
    refused.  [addFamilyMember] rejects with the NOT NULL error when the name
    is null or undefined and with the UNIQUE error when a member already has
    the name; the store is as before and POST /members answers 500. *)
Theorem addFamilyMember_rejects now db (name color role : Js.value) :
  Sql.bind name = Sql.Null
  \/ (exists m, m ∈ Sql.family_members (Sql.data db)
                /\ Sql.m_name m = Sql.bind name) ->
  addFamilyMember now db name color role
  = (Rejected (SqliteError
                 (if decide (Sql.bind name = Sql.Null)
                  then Sql.NotNull "family_members.name"
                  else Sql.Unique "family_members.name")),
     db)
  /\ forall body,
       Js.get body "name" = name -> Js.get body "color" = color ->
       Js.get body "role" = role ->
       post_member now db body
       = (Some (Build_Response 500 (Failure "Failed to add family member")), db).
Proof.
  intros H.
  assert (addFamilyMember now db name color role
          = (Rejected (SqliteError
                         (if decide (Sql.bind name = Sql.Null)
                          then Sql.NotNull "family_members.name"
                          else Sql.Unique "family_members.name")), db)) as Hrun.
  { unfold addFamilyMember, Sql.insert_member.
    destruct (decide (Sql.bind name = Sql.Null)) as [|Hn]; [done|].
    destruct H as [|(m & Hm & He)]; [done|].
    assert (existsb (fun m => Sql.eqb (Sql.m_name m) (Sql.bind name))
                    (Sql.family_members (Sql.data db)) = true) as ->; [|done].
    apply existsb_name_true. by exists m. }
  split; [exact Hrun|]. intros body <- <- <-. unfold post_member.
  by rewrite Hrun.
Qed.

(** X8 at the name of a seeded member. *)
Lemma addFamilyMember_rejects_witness :
  addFamilyMember Examples.t1 Examples.seeded (Js.Str "Mom") (Js.Str "#FF0000")
                  (Js.Str "member")
  = (Rejected (SqliteError (Sql.Unique "family_members.name")), Examples.seeded)
  /\ forall body,
       Js.get body "name" = Js.Str "Mom" ->
       Js.get body "color" = Js.Str "#FF0000" ->
       Js.get body "role" = Js.Str "member" ->
       post_member Examples.t1 Examples.seeded body
       = (Some (Build_Response 500 (Failure "Failed to add family member")),
          Examples.seeded).
Proof.
  apply (addFamilyMember_rejects Examples.t1 Examples.seeded (Js.Str "Mom")
           (Js.Str "#FF0000") (Js.Str "member")).
  right.
  exists (Sql.Member 1 (Sql.Text "Mom") (Sql.Text "#E91E63") Sql.Null
            (Sql.Text "admin") (Sql.Text Examples.t0) (Sql.Text Examples.t0)).
  split; [|reflexivity]. vm_compute. apply list_elem_of_here.
Defined.



End MemberExtras.

(** ** Creating and listing chores *)

Section ChoreExtras.

Import Database Routes.





(** X11: POST /api/chores answers 201 exactly when the title is truthy and the
    assignee is falsy or strictly equal to the id of a member; in every other
    case it answers 500 and the store is as before. *)
Theorem post_chore_status now db req :
  if Js.truthy (Js.get (body req) "title")
     && (negb (Js.truthy (Js.get (body req) "assigned_to"))
         || existsb (fun m => Js.strict_eq (Js.Num (Sql.m_id m))
                                (Js.get (body req) "assigned_to"))
                    (Sql.family_members (Sql.data db)))
  then exists id,
         (post_chore now db req).1
         = Some (Build_Response 201 (Created id "Chore created successfully"))
         /\ (addChore now db (body req)).1 = Resolved id
  else post_chore now db req
       = (Some (Build_Response 500 (Failure "Failed to create chore")), db).
Proof.
  assert (existsb (fun m => Js.strict_eq (Js.Num (Sql.m_id m))
                              (Js.get (body req) "assigned_to"))
                  (Sql.select_members (Sql.data db))
          = existsb (fun m => Js.strict_eq (Js.Num (Sql.m_id m))
                                (Js.get (body req) "assigned_to"))
                    (Sql.family_members (Sql.data db))) as Hex.
  { apply eq_true_iff_eq. rewrite !existsb_exists.
    split; intros (m & Hm & H); exists m; (split; [|done]);
      apply list_elem_of_In; apply list_elem_of_In in Hm;
      by apply select_members_elem. }
  unfold post_chore, addChore, getFamilyMembers. rewrite Hex.
  assert (Js.truthy (Js.get (body req) "title") = true ->
          Sql.bind (Js.get (body req) "title") <> Sql.Null) as Hn.
  { by destruct (Js.get (body req) "title"). }
  unfold Sql.insert_chore.
  destruct (Js.truthy (Js.get (body req) "title")); cbn [negb andb];
    try done.
  destruct (decide (Sql.bind (Js.get (body req) "title") = Sql.Null));
    [exfalso; by apply Hn|].
  destruct (Js.truthy (Js.get (body req) "assigned_to")); cbn [negb orb];
    [destruct (existsb _ (Sql.family_members (Sql.data db))); try done|];
    by eexists.
Qed.

End ChoreExtras.

(** ** Updating and completing through the routes *)

Section UpdateExtras.

Import Database Routes.







End UpdateExtras.

Section CompleteExtras.

Import Database Routes.





End CompleteExtras.

(** ** JavaScript text and objects *)

Section Text.






End Text.

Section Objects.

Import JsRuntime.

Lemma eqb_decide (a b : string) : String.eqb a b = bool_decide (a = b).
Proof.
  destruct (String.eqb_spec a b).
  - by rewrite bool_decide_eq_true_2.
  - by rewrite bool_decide_eq_false_2.
Qed.

Lemma get_absent o k : k ∉ Js.keys o -> Js.get o k = Js.Undefined.
Proof.
  induction o as [|[k' v'] o IH]; [done|]. intros Hk.
  cbn [Js.get]. rewrite eqb_decide, bool_decide_eq_false_2.
  - apply IH. intros H. apply Hk. by apply list_elem_of_further.
  - intros ->. apply Hk. apply list_elem_of_here.
Qed.

Lemma get_assign o k v k' :
  Js.get (assign o k v) k' = if String.eqb k k' then v else Js.get o k'.
Proof.
  induction o as [|[k0 v0] o IH]; cbn [assign Js.get]; [done|].
  destruct (String.eqb_spec k0 k) as [->|Hk0].
  - cbn [Js.get]. by destruct (String.eqb k k').
  - cbn [Js.get]. rewrite IH.
    destruct (String.eqb_spec k0 k') as [->|]; [|done].
    destruct (String.eqb_spec k k'); congruence.
Qed.

Lemma keys_assign o k v k' :
  k' ∈ Js.keys (assign o k v) <-> k' = k \/ k' ∈ Js.keys o.
Proof.
  unfold Js.keys. induction o as [|[k0 v0] o IH]; cbn [assign map fst].
  - rewrite list_elem_of_singleton. split; [by left|]. intros [|H]; [done|].
    by apply elem_of_nil in H.
  - destruct (String.eqb_spec k0 k) as [->|Hk0]; cbn [map fst].
    + rewrite !elem_of_cons. tauto.
    + rewrite !elem_of_cons, IH. tauto.
Qed.

Lemma keys_assign_NoDup o k v :
  NoDup (Js.keys o) -> NoDup (Js.keys (assign o k v)).
Proof.
  unfold Js.keys. induction o as [|[k0 v0] o IH]; cbn [assign map fst].
  - intros _. apply NoDup_singleton.
  - intros [H0 Ho]%NoDup_cons.
    destruct (String.eqb_spec k0 k) as [->|Hk0]; cbn [map fst];
      apply NoDup_cons; split; try done; [|by apply IH].
    intros [?|?]%(keys_assign o k v k0); [congruence|done].
Qed.

(** Assigning to a property the value it has changes nothing. *)
Lemma assign_same o k :
  k ∈ Js.keys o -> assign o k (Js.get o k) = o.
Proof.
  unfold Js.keys. induction o as [|[k0 v0] o IH]; cbn [map fst].
  - by intros ?%elem_of_nil.
  - intros Hk. cbn [assign Js.get].
    destruct (String.eqb_spec k0 k) as [->|Hk0]; [done|].
    f_equal. apply IH. by apply elem_of_cons in Hk as [->|Hk].
Qed.

Lemma spread_assign_all a b : spread a b = assign_all (assign_all [] a) b.
Proof. reflexivity. Qed.

Lemma assign_all_NoDup o b :
  NoDup (Js.keys o) -> NoDup (Js.keys (assign_all o b)).
Proof.
  revert o. induction b as [|[k v] b IH]; intros o Ho; [done|].
  apply IH. by apply keys_assign_NoDup.
Qed.

Lemma keys_assign_all o b k :
  k ∈ Js.keys (assign_all o b) <-> k ∈ Js.keys b \/ k ∈ Js.keys o.
Proof.
  revert o. induction b as [|[k0 v0] b IH]; intros o.
  - cbn. split; [by right|]. intros [H|H]; [by apply elem_of_nil in H|done].
  - change (assign_all o ((k0, v0) :: b))
      with (assign_all (assign o k0 v0) b).
    rewrite IH, keys_assign. unfold Js.keys. cbn [map fst].
    rewrite elem_of_cons. tauto.
Qed.

Lemma get_head k v b : Js.get ((k, v) :: b) k = v.
Proof. cbn [Js.get]. by rewrite String.eqb_refl. Qed.

Lemma get_assign_all o b k :
  NoDup (Js.keys b) ->
  Js.get (assign_all o b) k
  = if bool_decide (k ∈ Js.keys b) then Js.get b k else Js.get o k.
Proof.
  revert o. induction b as [|[k0 v0] b IH]; intros o Hb.
  - cbn. rewrite bool_decide_eq_false_2; [done|]. apply not_elem_of_nil.
  - unfold Js.keys in Hb. cbn [map fst] in Hb.
    apply NoDup_cons in Hb as [Hk0 Hb].
    change (assign_all o ((k0, v0) :: b))
      with (assign_all (assign o k0 v0) b).
    rewrite IH by done. rewrite get_assign. cbn [Js.get].
    unfold Js.keys. cbn [map fst].
    destruct (String.eqb_spec k0 k) as [->|Hne].
    + rewrite (bool_decide_eq_false_2 (k ∈ map fst b)) by done.
      rewrite bool_decide_eq_true_2; [done|]. apply list_elem_of_here.
    + destruct (decide (k ∈ map fst b)) as [Hin|Hin].
      * rewrite !bool_decide_eq_true_2; [done| |done].
        by apply list_elem_of_further.
      * rewrite !bool_decide_eq_false_2; [done| |done].
        intros [->|?]%elem_of_cons; done.
Qed.

(** An object without repeated keys is what assigning its properties one by
    one to the empty object builds. *)
Lemma assign_all_app o b :
  NoDup (Js.keys (o ++ b)) -> assign_all o b = o ++ b.
Proof.
  revert o. induction b as [|[k v] b IH]; intros o Hnd.
  - cbn. by rewrite app_nil_r.
  - change (assign_all o ((k, v) :: b)) with (assign_all (assign o k v) b).
    assert (assign o k v = o ++ [(k, v)]) as ->.
    { assert (k ∉ Js.keys o) as Hk.
      { unfold Js.keys in *. rewrite map_app in Hnd.
        apply NoDup_app in Hnd as (_ & Hd & _). intros Hin.
        apply (Hd k Hin). cbn. apply list_elem_of_here. }
      clear -Hk. induction o as [|[k0 v0] o IHo]; [done|].
      cbn [assign]. unfold Js.keys in Hk. cbn [map fst] in Hk.
      destruct (String.eqb_spec k0 k) as [->|Hne].
      - exfalso. apply Hk, list_elem_of_here.
      - cbn. f_equal. apply IHo. intros H. apply Hk.
        by apply list_elem_of_further. }
    rewrite IH; rewrite <- app_assoc; done.
Qed.

Lemma assign_all_nil o : NoDup (Js.keys o) -> assign_all [] o = o.
Proof. intros H. by rewrite assign_all_app. Qed.

Lemma get_elem (b : Js.object) k v :
  NoDup (Js.keys b) -> (k, v) ∈ b -> Js.get b k = v.
Proof.
  unfold Js.keys. induction b as [|[k0 v0] b IH]; cbn [map fst].
  - by intros _ ?%elem_of_nil.
  - intros [Hk0 Hb]%NoDup_cons Hin. cbn [Js.get].
    apply elem_of_cons in Hin as [[= -> ->]|Hin].
    + by rewrite String.eqb_refl.
    + destruct (String.eqb_spec k0 k) as [->|Hne]; [|by apply IH].
      exfalso. apply Hk0. apply (list_elem_of_fmap_2 fst) in Hin. done.
Qed.

(** Assigning properties an object already has, with the values it has. *)
Lemma assign_all_same o b :
  (forall k v, (k, v) ∈ b -> k ∈ Js.keys o /\ Js.get o k = v) ->
  assign_all o b = o.
Proof.
  induction b as [|[k v] b IH]; intros H; [done|].
  change (assign_all o ((k, v) :: b)) with (assign_all (assign o k v) b).
  destruct (H k v) as [Hk <-]; [apply list_elem_of_here|].
  rewrite assign_same by done. apply IH. intros k' v' Hin. apply H.
  by apply list_elem_of_further.
Qed.

(** Reading a spread: the property of [b] when [b] has it, that of [a]
    otherwise. *)
Lemma get_spread a b k :
  NoDup (Js.keys a) -> NoDup (Js.keys b) ->
  Js.get (spread a b) k
  = if bool_decide (k ∈ Js.keys b) then Js.get b k else Js.get a k.
Proof.
  intros Ha Hb. rewrite spread_assign_all, get_assign_all by done.
  by rewrite assign_all_nil.
Qed.

Lemma spread_NoDup a b : NoDup (Js.keys (spread a b)).
Proof.
  rewrite spread_assign_all. apply assign_all_NoDup, assign_all_NoDup.
  apply NoDup_nil_2.
Qed.

Lemma spread_again a b :
  NoDup (Js.keys b) -> spread (spread a b) b = spread a b.
Proof.
  intros Hb. rewrite (spread_assign_all (spread a b) b).
  rewrite assign_all_nil by apply spread_NoDup.
  apply assign_all_same. intros k v Hin.
  assert (k ∈ Js.keys b) as Hk by (by apply (list_elem_of_fmap_2 fst) in Hin).
  rewrite spread_assign_all. split.
  - apply keys_assign_all. by left.
  - rewrite get_assign_all by done. rewrite bool_decide_eq_true_2 by done.
    by apply get_elem.
Qed.

End Objects.

(** ** The display: the listener of 'chore-changed' *)

Section ChoreChanged.

Import JsRuntime Display.

Lemma strict_eq_true_r a b : Js.strict_eq a b = true -> Js.strict_eq b b = true.
Proof.
  destruct a, b; cbn; intros H; try discriminate;
    auto using Bool.eqb_reflx, Z.eqb_refl, String.eqb_refl.
Qed.

Lemma strict_eq_true a b : Js.strict_eq a b = true -> a = b.
Proof.
  destruct a, b; cbn; intros H; try discriminate; try done; f_equal;
    auto using Bool.eqb_prop. 
  - by apply Z.eqb_eq.
  - by apply String.eqb_eq.
Qed.

(** X15: the listener of 'chore-changed'.  For a message and local chores
    that are objects with each property once: the list keeps its length; a
    chore whose id is not strictly equal to the id of the message is left as
    it is; the first chore with that id reads, for every property, the value
    of the message when the message has the property and its own value
    otherwise; and receiving the same message a second time changes nothing
    more. *)
Theorem updateChore_merges (chores : list Js.object) (choreData : Js.object) :
  NoDup (Js.keys choreData) ->
  Forall (fun c => NoDup (Js.keys c)) chores ->
  length (updateChore chores choreData) = length chores
  /\ (forall i c, chores !! i = Some c -> same_id choreData c = false ->
        updateChore chores choreData !! i = Some c)
  /\ (forall i c,
        chores !! i = Some c -> same_id choreData c = true ->
        (forall j c0, chores !! j = Some c0 -> (j < i)%nat ->
                      same_id choreData c0 = false) ->
        exists c', updateChore chores choreData !! i = Some c'
          /\ forall k, Js.get c' k
                       = if bool_decide (k ∈ Js.keys choreData)
                         then Js.get choreData k else Js.get c k)
  /\ ((forall c, c ∈ chores -> same_id choreData c = false) ->
      updateChore chores choreData = chores)
  /\ updateChore (updateChore chores choreData) choreData
     = updateChore chores choreData.
Proof.
  intros Hd Hcs. unfold updateChore.
  destruct (list_find _ chores) as [[i c]|] eqn:Hfind.
  - apply list_find_Some in Hfind as (Hi & Hc & Hfirst).
    assert (NoDup (Js.keys c)) as Hkc.
    { rewrite Forall_forall in Hcs. apply Hcs. by eapply list_elem_of_lookup_2. }
    assert (same_id choreData (spread c choreData) = true) as Hnew.
    { unfold same_id. rewrite get_spread by done.
      destruct (bool_decide _); [|done]. by eapply strict_eq_true_r. }
    split; [by rewrite length_insert|]. split.
    { intros j c0 Hj Hne. rewrite list_lookup_insert_ne; [done|].
      intros ->. rewrite Hi in Hj. injection Hj as ->. congruence. }
    split.
    { intros j c0 Hj Heq Hbefore.
      assert (j = i) as ->.
      { destruct (Nat.lt_trichotomy j i) as [Hlt|[->|Hlt]]; [|done|].
        - exfalso. by apply (Hfirst j c0 Hj Hlt).
        - specialize (Hbefore i c Hi Hlt). congruence. }
      rewrite Hi in Hj. injection Hj as <-.
      exists (spread c choreData). split.
      - apply list_lookup_insert_eq. by eapply lookup_lt_Some.
      - intros k. by apply get_spread. }
    split.
    { intros Hnone. specialize (Hnone c ltac:(by eapply list_elem_of_lookup_2)).
      congruence. }
    assert (list_find (fun c => same_id choreData c = true)
              (<[i := spread c choreData]> chores)
            = Some (i, spread c choreData)) as ->.
    { apply list_find_Some. split; [|split; [done|]].
      - apply list_lookup_insert_eq. by eapply lookup_lt_Some.
      - intros j y Hj Hlt. rewrite list_lookup_insert_ne in Hj by lia.
        by apply (Hfirst j y). }
    rewrite list_insert_insert_eq. by rewrite spread_again.
  - split; [done|]. split; [done|]. split.
    { intros i c Hi Heq _. exfalso.
      apply list_find_None in Hfind. rewrite Forall_forall in Hfind.
      apply (Hfind c); [by eapply list_elem_of_lookup_2|done]. }
    split; [done|]. by rewrite Hfind.
Qed.

(** X15 on a board of two chores and a message for the second one. *)
Lemma updateChore_merges_witness :
  length (updateChore DisplayExamples.board DisplayExamples.dishes_done)
  = length DisplayExamples.board
  /\ (forall i c, DisplayExamples.board !! i = Some c ->
        same_id DisplayExamples.dishes_done c = false ->
        updateChore DisplayExamples.board DisplayExamples.dishes_done !! i
        = Some c)
  /\ (forall i c,
        DisplayExamples.board !! i = Some c ->
        same_id DisplayExamples.dishes_done c = true ->
        (forall j c0, DisplayExamples.board !! j = Some c0 -> (j < i)%nat ->
                      same_id DisplayExamples.dishes_done c0 = false) ->
        exists c',
          updateChore DisplayExamples.board DisplayExamples.dishes_done !! i
          = Some c'
          /\ forall k, Js.get c' k
                       = if bool_decide (k ∈ Js.keys DisplayExamples.dishes_done)
                         then Js.get DisplayExamples.dishes_done k
                         else Js.get c k)
  /\ ((forall c, c ∈ DisplayExamples.board ->
                 same_id DisplayExamples.dishes_done c = false) ->
      updateChore DisplayExamples.board DisplayExamples.dishes_done
      = DisplayExamples.board)
  /\ updateChore
       (updateChore DisplayExamples.board DisplayExamples.dishes_done)
       DisplayExamples.dishes_done
     = updateChore DisplayExamples.board DisplayExamples.dishes_done.
Proof.
  apply (updateChore_merges DisplayExamples.board DisplayExamples.dishes_done).
  - apply (bool_decide_unpack (NoDup (Js.keys DisplayExamples.dishes_done))).
    vm_compute. reflexivity.
  - apply (bool_decide_unpack
             (Forall (fun c => NoDup (Js.keys c)) DisplayExamples.board)).
    vm_compute. reflexivity.
Defined.

End ChoreChanged.

(** ** The display: views and swipes *)

Section Pages.

Import JsRuntime Display.

Lemma existsb_filter_ne (c x : string) (l : list string) :
  existsb (String.eqb c) (List.filter (fun c' => negb (String.eqb x c')) l)
  = existsb (String.eqb c) l && negb (String.eqb x c).
Proof.
  induction l as [|a l IH]; [done|]. cbn [List.filter existsb].
  destruct (String.eqb_spec x a) as [->|Hxa]; cbn [negb existsb].
  - rewrite IH. destruct (String.eqb_spec c a) as [->|Hca]; [|done].
    rewrite String.eqb_refl. cbn. by rewrite andb_false_r.
  - rewrite IH. destruct (String.eqb_spec c a) as [->|Hca]; [|done].
    destruct (String.eqb_spec x a); [done|]. done.
Qed.

Lemma has_class_remove c x e :
  has_class c (remove_class x e) = has_class c e && negb (String.eqb x c).
Proof. apply existsb_filter_ne. Qed.

Lemma has_class_add c x e :
  has_class c (add_class x e) = has_class c e || String.eqb c x.
Proof.
  unfold add_class. destruct (has_class x e) eqn:Hx.
  - destruct (String.eqb_spec c x) as [->|_]; [|by rewrite orb_false_r].
    by rewrite Hx.
  - unfold has_class. cbn [classList]. rewrite existsb_app. cbn [existsb].
    by rewrite orb_false_r.
Qed.

Lemma element_id_add x e : element_id (add_class x e) = element_id e.
Proof. unfold add_class. by destruct (has_class x e). Qed.

Lemma getElementById_hide doc i :
  getElementById (hide_views doc) i
  = (fun e => if has_class "view" e then remove_class "active" e else e)
      <$> getElementById doc i.
Proof.
  unfold getElementById, hide_views.
  induction doc as [|e doc IH]; [done|]. cbn [map List.find].
  assert (element_id (if has_class "view" e then remove_class "active" e
                      else e) = element_id e) as ->
    by by destruct (has_class "view" e).
  by destruct (String.eqb (element_id e) i).
Qed.

Lemma getElementById_activate doc j i :
  getElementById (activate doc j) i
  = if String.eqb j i then add_class "active" <$> getElementById doc i
    else getElementById doc i.
Proof.
  unfold getElementById. induction doc as [|e doc IH].
  - cbn. by destruct (String.eqb j i).
  - cbn [activate]. destruct (String.eqb_spec (element_id e) j) as [Hj|Hj].
    + cbn [List.find]. rewrite element_id_add, Hj.
      destruct (String.eqb_spec j i) as [->|Hji]; [|done].
      done.
    + cbn [List.find]. rewrite IH.
      destruct (String.eqb_spec (element_id e) i) as [Hi|Hi]; [|done].
      destruct (String.eqb_spec j i) as [->|Hji]; [done|]. done.
Qed.

Lemma shown_cons e doc :
  shown (e :: doc)
  = (if has_class "view" e && has_class "active" e then [element_id e]
     else []) ++ shown doc.
Proof.
  unfold shown. cbn [List.filter].
  by destruct (has_class "view" e && has_class "active" e).
Qed.

Lemma hidden e :
  has_class "view" (if has_class "view" e then remove_class "active" e else e)
  && has_class "active"
       (if has_class "view" e then remove_class "active" e else e) = false.
Proof.
  destruct (has_class "view" e) eqn:Hv; [|by rewrite Hv].
  rewrite !has_class_remove. cbn. by rewrite !andb_false_r.
Qed.

(** After the first statement of [switchView] no view is shown. *)
Lemma shown_hide doc : shown (hide_views doc) = [].
Proof.
  induction doc as [|e doc IH]; [done|].
  cbn [hide_views map]. rewrite shown_cons, hidden. exact IH.
Qed.

(** After a switch that finds its element, that view and no other is shown. *)
Lemma shown_activate doc i e :
  getElementById doc i = Some e -> has_class "view" e = true ->
  shown (activate (hide_views doc) i) = [i].
Proof.
  unfold getElementById. induction doc as [|a doc IH]; [done|].
  cbn [List.find hide_views map activate]. intros Hfind Hview.
  assert (element_id (if has_class "view" a then remove_class "active" a
                      else a) = element_id a) as Hid
    by by destruct (has_class "view" a).
  rewrite Hid. destruct (String.eqb_spec (element_id a) i) as [Hi|Hi].
  - injection Hfind as ->. rewrite shown_cons, element_id_add, Hid, Hi.
    rewrite !has_class_add, Hview, has_class_remove, Hview.
    change ("active" =? "active")%string with true. rewrite orb_true_r.
    change ("active" =? "view")%string with false.
    cbn [negb andb orb]. change (map _ doc) with (hide_views doc).
    by rewrite shown_hide.
  - rewrite shown_cons, hidden. cbn [app]. by apply IH.
Qed.

(** A switch to a view whose element the page has, with class 'view': the
    view is recorded and shown, alone; the switch is sent; and every element
    of class 'view' is still there, with that class. *)
Lemma switchView_present app (v : Js.value) e :
  getElementById (document app) (to_string v +:+ "-view") = Some e ->
  (switchView app v).2 = [("switch-view", v)]
  /\ currentView (switchView app v).1 = v
  /\ (has_class "view" e = true ->
      look (switchView app v).1 = (v, [to_string v +:+ "-view"]))
  /\ (forall i e0,
        getElementById (document app) i = Some e0 ->
        exists e1, getElementById (document (switchView app v).1) i = Some e1
                   /\ has_class "view" e1 = has_class "view" e0).
Proof.
  intros He. unfold switchView. rewrite getElementById_hide, He.
  cbn [fmap option_fmap option_map fst snd currentView document].
  split; [done|]. split; [done|]. split.
  - intros Hview. unfold look. cbn [currentView document].
    by rewrite (shown_activate _ _ e He Hview).
  - intros i e0 Hi. rewrite getElementById_activate, getElementById_hide, Hi.
    cbn [fmap option_fmap option_map].
    destruct (String.eqb _ i); eexists; (split; [reflexivity|]).
    + rewrite has_class_add. cbn. rewrite orb_false_r.
      destruct (has_class "view" e0) eqn:Hv; [|done].
      rewrite has_class_remove, Hv. done.
    + destruct (has_class "view" e0) eqn:Hv; [|done].
      rewrite has_class_remove, Hv. done.
Qed.

(** A switch to a view without element: every view is hidden, nothing is
    recorded and nothing is sent. *)
Lemma switchView_absent app (v : Js.value) :
  getElementById (document app) (to_string v +:+ "-view") = None ->
  switchView app v = (Build_App (currentView app) (hide_views (document app)), [])
  /\ look (switchView app v).1 = (currentView app, []).
Proof.
  intros He. unfold switchView. rewrite getElementById_hide, He.
  cbn [fmap option_fmap option_map fst]. split; [done|].
  unfold look. cbn [currentView document]. by rewrite shown_hide.
Qed.

End Pages.

Section Swipes.

Import JsRuntime Display.

Lemma handleSwipe_left app (i : nat) v :
  views !! i = Some v -> currentView app = Js.Str v ->
  handleSwipe app "left"
  = switchView app (Js.Str (views !!! ((i + 1) mod 5)%nat)).
Proof.
  intros Hi Hv. unfold handleSwipe. rewrite Hv.
  do 5 (destruct i as [|i]; [injection Hi as <-; reflexivity|]).
  discriminate.
Qed.

Lemma handleSwipe_right app (i : nat) v :
  views !! i = Some v -> currentView app = Js.Str v ->
  handleSwipe app "right"
  = switchView app (Js.Str (views !!! ((i + 4) mod 5)%nat)).
Proof.
  intros Hi Hv. unfold handleSwipe. rewrite Hv.
  do 5 (destruct i as [|i]; [injection Hi as <-; reflexivity|]).
  discriminate.
Qed.

Lemma views_total (i : nat) : (i < 5)%nat -> views !! i = Some (views !!! i).
Proof. intros H. do 5 (destruct i as [|i]; [reflexivity|]). lia. Qed.

Lemma views_elem (i : nat) : (i < 5)%nat -> views !!! i ∈ views.
Proof. intros H. eapply list_elem_of_lookup_2. by apply views_total. Qed.

(** One swipe on a page that has the five views. *)
Lemma handleSwipe_step app (i : nat) :
  (i < 5)%nat ->
  currentView app = Js.Str (views !!! i) ->
  (forall w, w ∈ views ->
     exists e, getElementById (document app) (w +:+ "-view") = Some e
               /\ has_class "view" e = true) ->
  forall (d : string) (k : nat),
    (d = "left" /\ k = 1%nat) \/ (d = "right" /\ k = 4%nat) ->
    look (handleSwipe app d).1
    = (Js.Str (views !!! ((i + k) mod 5)%nat),
       [views !!! ((i + k) mod 5)%nat +:+ "-view"])
    /\ (handleSwipe app d).2
       = [("switch-view", Js.Str (views !!! ((i + k) mod 5)%nat))]
    /\ (forall w, w ∈ views ->
          exists e,
            getElementById (document (handleSwipe app d).1) (w +:+ "-view")
            = Some e
            /\ has_class "view" e = true).
Proof.
  intros Hi Hv Hpage d k Hd.
  assert (handleSwipe app d
          = switchView app (Js.Str (views !!! ((i + k) mod 5)%nat))) as ->.
  { destruct Hd as [[-> ->]|[-> ->]].
    - by apply (handleSwipe_left app i _ (views_total i Hi)).
    - by apply (handleSwipe_right app i _ (views_total i Hi)). }
  assert (((i + k) mod 5 < 5)%nat) as Hk by by apply Nat.mod_upper_bound.
  destruct (Hpage _ (views_elem _ Hk)) as (e & He & Hview).
  destruct (switchView_present app (Js.Str (views !!! ((i + k) mod 5)%nat)) e
              He) as (Hout & _ & Hlook & Hkeep).
  split; [by apply Hlook|]. split; [done|].
  intros w Hw. destruct (Hpage w Hw) as (e0 & He0 & Hv0).
  destruct (Hkeep _ _ He0) as (e1 & He1 & Hv1).
  exists e1. split; [done|]. by rewrite Hv1.
Qed.

(** X16: swiping through the views.  On a page that has an element of class
    'view' for each of the five views, with the view number [i] of the list
    current: a swipe to the left makes view [i + 1] current, a swipe to the
    right view [i - 1], both modulo five; that view is then the one view
    shown, and one 'switch-view' with its name is sent.  A swipe to the right
    after a swipe to the left, or the converse, leads back to view [i], and
    so do five swipes to the left. *)
Theorem handleSwipe_cycles app (i : nat) :
  (i < 5)%nat ->
  currentView app = Js.Str (views !!! i) ->
  (forall w, w ∈ views ->
     exists e, getElementById (document app) (w +:+ "-view") = Some e
               /\ has_class "view" e = true) ->
  (look (handleSwipe app "left").1
   = (Js.Str (views !!! ((i + 1) mod 5)%nat),
      [views !!! ((i + 1) mod 5)%nat +:+ "-view"])
   /\ (handleSwipe app "left").2
      = [("switch-view", Js.Str (views !!! ((i + 1) mod 5)%nat))])
  /\ (look (handleSwipe app "right").1
      = (Js.Str (views !!! ((i + 4) mod 5)%nat),
         [views !!! ((i + 4) mod 5)%nat +:+ "-view"])
      /\ (handleSwipe app "right").2
         = [("switch-view", Js.Str (views !!! ((i + 4) mod 5)%nat))])
  /\ look (handleSwipe (handleSwipe app "left").1 "right").1
     = (Js.Str (views !!! i), [views !!! i +:+ "-view"])
  /\ look (handleSwipe (handleSwipe app "right").1 "left").1
     = (Js.Str (views !!! i), [views !!! i +:+ "-view"])
  /\ look (Nat.iter 5 (fun a => (handleSwipe a "left").1) app)
     = (Js.Str (views !!! i), [views !!! i +:+ "-view"]).
Proof.
  intros Hi Hv Hpage.
  destruct (handleSwipe_step app i Hi Hv Hpage "left" 1) as (Hl & Hlo & Hlp);
    [by left|].
  destruct (handleSwipe_step app i Hi Hv Hpage "right" 4) as (Hr & Hro & Hrp);
    [by right|].
  assert (forall j, (j < 5)%nat -> ((j + 1) mod 5 + 4) mod 5 = j
                                   /\ ((j + 4) mod 5 + 1) mod 5 = j)%nat
    as Hmod.
  { intros j Hj. do 5 (destruct j as [|j]; [done|]). lia. }
  split; [done|]. split; [done|]. split; [|split].
  - destruct (handleSwipe_step (handleSwipe app "left").1 ((i + 1) mod 5)%nat)
      with (d := "right") (k := 4%nat) as (H & _ & _);
      [by apply Nat.mod_upper_bound|by injection Hl|done|by right|].
    by rewrite (proj1 (Hmod i Hi)) in H.
  - destruct (handleSwipe_step (handleSwipe app "right").1 ((i + 4) mod 5)%nat)
      with (d := "left") (k := 1%nat) as (H & _ & _);
      [by apply Nat.mod_upper_bound|by injection Hr|done|by left|].
    by rewrite (proj2 (Hmod i Hi)) in H.
  - assert (forall n, (0 < n)%nat ->
              look (Nat.iter n (fun a => (handleSwipe a "left").1) app)
              = (Js.Str (views !!! ((i + n) mod 5)%nat),
                 [views !!! ((i + n) mod 5)%nat +:+ "-view"])
              /\ (forall w, w ∈ views ->
                    exists e,
                      getElementById
                        (document
                           (Nat.iter n (fun a => (handleSwipe a "left").1) app))
                        (w +:+ "-view") = Some e
                      /\ has_class "view" e = true)) as Hiter.
    { intros n Hn. induction n as [|n IH]; [lia|].
      rewrite Nat.iter_succ. destruct n as [|n].
      - cbn [Nat.iter nat_rect]. split; [done|]. done.
      - destruct (IH ltac:(lia)) as [IHl IHp].
        destruct (handleSwipe_step
                    (Nat.iter (S n) (fun a => (handleSwipe a "left").1) app)
                    ((i + S n) mod 5)%nat)
          with (d := "left") (k := 1%nat) as (H & _ & Hp);
          [by apply Nat.mod_upper_bound|by injection IHl|done|by left|].
        split; [|done]. rewrite H.
        rewrite Nat.Div0.add_mod_idemp_l.
        by replace (i + S n + 1)%nat with (i + S (S n))%nat by lia. }
    destruct (Hiter 5%nat ltac:(lia)) as [H _]. rewrite H.
    rewrite <- (Nat.mul_1_l 5) at 1 3. rewrite Nat.Div0.mod_add.
    by rewrite Nat.mod_small.
Qed.

(** X16 on a page that shows the dashboard. *)
Lemma handleSwipe_cycles_witness :
  (look (handleSwipe DisplayExamples.dashboard "left").1
   = (Js.Str (views !!! ((0 + 1) mod 5)%nat),
      [views !!! ((0 + 1) mod 5)%nat +:+ "-view"])
   /\ (handleSwipe DisplayExamples.dashboard "left").2
      = [("switch-view", Js.Str (views !!! ((0 + 1) mod 5)%nat))])
  /\ (look (handleSwipe DisplayExamples.dashboard "right").1
      = (Js.Str (views !!! ((0 + 4) mod 5)%nat),
         [views !!! ((0 + 4) mod 5)%nat +:+ "-view"])
      /\ (handleSwipe DisplayExamples.dashboard "right").2
         = [("switch-view", Js.Str (views !!! ((0 + 4) mod 5)%nat))])
  /\ look (handleSwipe (handleSwipe DisplayExamples.dashboard "left").1
             "right").1
     = (Js.Str (views !!! 0%nat), [views !!! 0%nat +:+ "-view"])
  /\ look (handleSwipe (handleSwipe DisplayExamples.dashboard "right").1
             "left").1
     = (Js.Str (views !!! 0%nat), [views !!! 0%nat +:+ "-view"])
  /\ look (Nat.iter 5 (fun a => (handleSwipe a "left").1)
             DisplayExamples.dashboard)
     = (Js.Str (views !!! 0%nat), [views !!! 0%nat +:+ "-view"]).
Proof.
  apply (handleSwipe_cycles DisplayExamples.dashboard 0).
  - lia.
  - reflexivity.
  - intros w Hw. vm_compute in Hw.
    repeat (apply elem_of_cons in Hw as [->|Hw];
            [eexists; split; vm_compute; reflexivity|]).
    by apply elem_of_nil in Hw.
Defined.

End Swipes.

Section SwipesElsewhere.

Import JsRuntime Display.

Lemma indexOf_absent (a : list string) (v : Js.value) :
  (forall w, w ∈ a -> v <> Js.Str w) -> indexOf a v = -1.
Proof.
  induction a as [|s a IH]; intros H; [done|]. cbn [indexOf].
  destruct (Js.strict_eq (Js.Str s) v) eqn:He.
  - apply strict_eq_true in He. exfalso. apply (H s); [apply list_elem_of_here|].
    done.
  - rewrite IH; [done|]. intros w Hw. apply H. by apply list_elem_of_further.
Qed.

(** X17: a swipe when the current view is none of the five.  A swipe to the
    left then behaves as [switchView('dashboard')].  A swipe to the right
    asks for the view [undefined]; on a page without an element
    'undefined-view' that hides every view and shows none: the recorded view
    stays, nothing is sent, and the page is left without a view on
    display. *)
Theorem handleSwipe_elsewhere app :
  (forall w, w ∈ views -> currentView app <> Js.Str w) ->
  getElementById (document app) "undefined-view" = None ->
  handleSwipe app "left" = switchView app (Js.Str "dashboard")
  /\ handleSwipe app "right"
     = (Build_App (currentView app) (hide_views (document app)), [])
  /\ look (handleSwipe app "right").1 = (currentView app, []).
Proof.
  intros Hcv Hund. unfold handleSwipe. rewrite indexOf_absent by done.
  split; [reflexivity|]. cbn [String.eqb Ascii.eqb Bool.eqb].
  change (JsRuntime.index views _) with Js.Undefined.
  by apply switchView_absent.
Qed.

(** X17 on a page whose current view is 'settings'. *)
Lemma handleSwipe_elsewhere_witness :
  handleSwipe DisplayExamples.elsewhere "left"
  = switchView DisplayExamples.elsewhere (Js.Str "dashboard")
  /\ handleSwipe DisplayExamples.elsewhere "right"
     = (Build_App (currentView DisplayExamples.elsewhere)
          (hide_views (document DisplayExamples.elsewhere)), [])
  /\ look (handleSwipe DisplayExamples.elsewhere "right").1
     = (currentView DisplayExamples.elsewhere, []).
Proof.
  apply (handleSwipe_elsewhere DisplayExamples.elsewhere).
  - intros w Hw. vm_compute in Hw.
    repeat (apply elem_of_cons in Hw as [->|Hw]; [discriminate|]).
    by apply elem_of_nil in Hw.
  - vm_compute. reflexivity.
Defined.

End SwipesElsewhere.

(** ** The view channel between displays and server *)

Section Echo.

Import JsRuntime Display Network.

(** The states in which every connected socket is a display whose page has
    the element of the view [v], and every delivery under way announces [v]
    to a connected socket. *)
Lemma step_view_changed server v st d rest :
  (forall s, s ∈ server -> is_Some (displays st !! s)) ->
  (forall s app, displays st !! s = Some app ->
     is_Some (getElementById (document app) (to_string v +:+ "-view"))) ->
  Forall (fun d => d.1 ∈ server /\ d.2 = ("view-changed", v)) (queue st) ->
  queue st = d :: rest ->
  (forall s, s ∈ server -> is_Some (displays (step server st) !! s))
  /\ (forall s app, displays (step server st) !! s = Some app ->
        is_Some (getElementById (document app) (to_string v +:+ "-view")))
  /\ Forall (fun d => d.1 ∈ server /\ d.2 = ("view-changed", v))
            (queue (step server st))
  /\ length (queue (step server st)) = (length rest + size server)%nat.
Proof.
  intros Hdisp Hpage Hq Hd. unfold step. rewrite Hd.
  rewrite Hd in Hq. apply Forall_cons in Hq as [[Hto Hmsg] Hrest].
  destruct d as [to [name payload]]. cbn [fst snd] in Hto, Hmsg |- *.
  injection Hmsg as -> ->.
  destruct (Hdisp to Hto) as [app Happ]. rewrite Happ.
  unfold on_message. cbn [String.eqb Ascii.eqb Bool.eqb].
  destruct (Hpage to app Happ) as [e He].
  destruct (switchView_present app v e He) as (Hout & _ & _ & Hkeep).
  destruct (switchView app v) as [app' out]. cbn [fst snd] in Hout, Hkeep.
  subst out. cbn [displays queue].
  assert (serve server to [("switch-view", v)]
          = Realtime.emit server "view-changed" v) as ->.
  { unfold serve. cbn. by rewrite app_nil_r. }
  split.
  { intros s Hs. destruct (decide (s = to)) as [->|Hne].
    - rewrite lookup_insert_eq. by eexists.
    - rewrite lookup_insert_ne by done. by apply Hdisp. }
  split.
  { intros s a. destruct (decide (s = to)) as [->|Hne].
    - rewrite lookup_insert_eq. intros [= <-].
      destruct (Hkeep _ _ He) as (e1 & -> & _). by eexists.
    - rewrite lookup_insert_ne by done. by apply Hpage. }
  split.
  { apply Forall_app. split; [done|]. unfold Realtime.emit.
    apply Forall_fmap, Forall_forall. intros s Hs. cbn. split; [|done].
    by apply elem_of_elements in Hs. }
  rewrite length_app. unfold Realtime.emit. by rewrite length_fmap.
Qed.

Lemma steps_view_changed server v st :
  (forall s, s ∈ server -> is_Some (displays st !! s)) ->
  (forall s app, displays st !! s = Some app ->
     is_Some (getElementById (document app) (to_string v +:+ "-view"))) ->
  Forall (fun d => d.1 ∈ server /\ d.2 = ("view-changed", v)) (queue st) ->
  queue st <> [] ->
  forall n,
    (forall s, s ∈ server ->
               is_Some (displays (Nat.iter n (step server) st) !! s))
    /\ (forall s app, displays (Nat.iter n (step server) st) !! s = Some app ->
          is_Some (getElementById (document app) (to_string v +:+ "-view")))
    /\ Forall (fun d => d.1 ∈ server /\ d.2 = ("view-changed", v))
              (queue (Nat.iter n (step server) st))
    /\ (length (queue (Nat.iter n (step server) st)) + n
        = length (queue st) + n * size server)%nat
    /\ queue (Nat.iter n (step server) st) <> [].
Proof.
  intros Hdisp Hpage Hq Hne.
  assert (0 < size server)%nat as Hsize.
  { destruct (queue st) as [|d rest] eqn:Hd; [done|].
    apply Forall_cons in Hq as [[Hto _] _].
    destruct (decide (size server = 0%nat)) as [Hz|]; [|lia].
    apply size_empty_iff in Hz. by apply Hz in Hto. }
  assert (0 < length (queue st))%nat as Hlen.
  { destruct (queue st); [done|cbn; lia]. }
  induction n as [|n IH].
  - cbn [Nat.iter nat_rect]. repeat split; first [done | lia].
  - rewrite Nat.iter_succ. destruct IH as (H1 & H2 & H3 & H4 & H5).
    destruct (queue (Nat.iter n (step server) st)) as [|d rest] eqn:Hd;
      [done|].
    destruct (step_view_changed server v _ d rest H1 H2) as
      (G1 & G2 & G3 & G4); [by rewrite Hd|done|].
    split; [done|]. split; [done|]. split; [done|].
    cbn [length] in H4. split; [nia|].
    intros Hnil. rewrite Hnil in G4. cbn in G4. lia.
Qed.

(** X18: a view switch does not come to rest.  Let every connected socket be
    a display whose page has the element of the view [v], and let nothing be
    under way.  When [v] is picked on one connected display, it becomes the
    current view there, and from then on every delivery handled puts one
    delivery per connected socket back on the wire: after [n] deliveries,
    [(n + 1) * size server - n] are under way, so that the exchange never
    ends. *)
Theorem view_switch_never_settles server socket v st (n : nat) :
  socket ∈ server ->
  (forall s, s ∈ server -> is_Some (displays st !! s)) ->
  (forall s app, displays st !! s = Some app ->
     is_Some (getElementById (document app) (to_string v +:+ "-view"))) ->
  queue st = [] ->
  (exists app, displays (pick server socket v st) !! socket = Some app
               /\ currentView app = v)
  /\ queue (pick server socket v st) = Realtime.emit server "view-changed" v
  /\ (length (queue (Nat.iter n (step server) (pick server socket v st))) + n
      = (n + 1) * size server)%nat
  /\ queue (Nat.iter n (step server) (pick server socket v st)) <> [].
Proof.
  intros Hs Hdisp Hpage Hidle.
  destruct (Hdisp socket Hs) as [app Happ].
  destruct (Hpage socket app Happ) as [e He].
  destruct (switchView_present app v e He) as (Hout & Hcur & _ & Hkeep).
  assert (pick server socket v st
          = Build_state (<[socket := (switchView app v).1]> (displays st))
                        (Realtime.emit server "view-changed" v)) as Hpick.
  { unfold pick. rewrite Happ.
    destruct (switchView app v) as [app' out]. cbn [fst snd] in Hout |- *.
    subst out. rewrite Hidle. unfold serve. cbn. by rewrite app_nil_r. }
  assert (0 < size server)%nat as Hsize.
  { destruct (decide (size server = 0%nat)) as [Hz|]; [|lia].
    apply size_empty_iff in Hz. by apply Hz in Hs. }
  assert (length (Realtime.emit server "view-changed" v) = size server)
    as Hlen.
  { unfold Realtime.emit. by rewrite length_fmap. }
  split; [rewrite Hpick; cbn [displays]; rewrite lookup_insert_eq; by eexists|].
  split; [by rewrite Hpick|].
  destruct (steps_view_changed server v (pick server socket v st)) with (n := n)
    as (_ & _ & _ & H4 & H5).
  - rewrite Hpick. cbn [displays]. intros s Hin.
    destruct (decide (s = socket)) as [->|Hne].
    + rewrite lookup_insert_eq. by eexists.
    + rewrite lookup_insert_ne by done. by apply Hdisp.
  - rewrite Hpick. cbn [displays]. intros s a.
    destruct (decide (s = socket)) as [->|Hne].
    + rewrite lookup_insert_eq. intros [= <-].
      destruct (Hkeep _ _ He) as (e1 & -> & _). by eexists.
    + rewrite lookup_insert_ne by done. by apply Hpage.
  - rewrite Hpick. cbn [queue]. unfold Realtime.emit.
    apply Forall_fmap, Forall_forall. intros s Hin. cbn. split; [|done].
    by apply elem_of_elements in Hin.
  - rewrite Hpick. cbn [queue]. intros Hnil. rewrite Hnil in Hlen.
    cbn in Hlen. lia.
  - split; [|done]. rewrite Hpick in H4 |- *. cbn [queue] in H4.
    rewrite Hlen in H4. lia.
Qed.

(** X18 for two connected displays, after three deliveries. *)
Lemma view_switch_never_settles_witness :
  (exists app,
      displays (pick DisplayExamples.sockets DisplayExamples.kitchen
                  (Js.Str "chores") DisplayExamples.idle)
        !! DisplayExamples.kitchen = Some app
      /\ currentView app = Js.Str "chores")
  /\ queue (pick DisplayExamples.sockets DisplayExamples.kitchen
              (Js.Str "chores") DisplayExamples.idle)
     = Realtime.emit DisplayExamples.sockets "view-changed" (Js.Str "chores")
  /\ (length (queue (Nat.iter 3 (step DisplayExamples.sockets)
                       (pick DisplayExamples.sockets DisplayExamples.kitchen
                          (Js.Str "chores") DisplayExamples.idle))) + 3
      = (3 + 1) * size DisplayExamples.sockets)%nat
  /\ queue (Nat.iter 3 (step DisplayExamples.sockets)
              (pick DisplayExamples.sockets DisplayExamples.kitchen
                 (Js.Str "chores") DisplayExamples.idle)) <> [].
Proof.
  apply (view_switch_never_settles DisplayExamples.sockets
           DisplayExamples.kitchen (Js.Str "chores") DisplayExamples.idle 3).
  - apply (bool_decide_unpack _). vm_compute. reflexivity.
  - intros s Hs.
    apply elem_of_union in Hs as [Hs|Hs]; apply elem_of_singleton in Hs;
      subst s; vm_compute; by eexists.
  - intros s app Hs. unfold DisplayExamples.idle in Hs. cbn [displays] in Hs.
    apply lookup_insert_Some in Hs as [[_ <-]|[_ Hs]];
      [vm_compute; by eexists|].
    apply lookup_insert_Some in Hs as [[_ <-]|[_ Hs]];
      [vm_compute; by eexists|].
    by rewrite lookup_empty in Hs.
  - reflexivity.
Defined.

End Echo.

(** ** The chore board against the server *)

Section Board.

Import Database Routes JsRuntime Display.















End Board.

(** ** [API.retry] *)

Section Retry.

Import Api.

Context {A E : Type}.

Lemma waits_succ (delay : Z) (k : nat) :
  (fun j : nat => delay * 2 ^ Z.of_nat j) <$> seq 0 (S k)
  = delay :: ((fun j : nat => delay * 2 * 2 ^ Z.of_nat j) <$> seq 0 k).
Proof.
  cbn [seq fmap list_fmap]. f_equal; [cbn; lia|].
  rewrite <- fmap_S_seq, <- list_fmap_compose. apply list_fmap_ext.
  intros i j _. cbn [compose]. rewrite Nat2Z.inj_succ, Z.pow_succ_r by lia.
  lia.
Qed.

(** The loop up to the call that ends it: [k] failed calls, each followed by
    a wait, when none of them is the last one allowed. *)
Lemma retry_loop_failures (fn : nat -> E + A) (maxRetries : Z) (k : nat) :
  forall (todo i : nat) (delay : Z),
    (forall j, (j < k)%nat -> exists e, fn (i + j)%nat = inl e) ->
    Z.of_nat (i + k) < maxRetries ->
    (k <= todo)%nat ->
    retry_loop fn maxRetries (todo) i delay
    = let '(r, waits) :=
        retry_loop fn maxRetries (todo - k) (i + k) (delay * 2 ^ Z.of_nat k) in
      (r, ((fun j : nat => delay * 2 ^ Z.of_nat j) <$> seq 0 k) ++ waits).
Proof.
  induction k as [|k IH]; intros todo i delay Hfail Hlt Htodo.
  - rewrite Nat.sub_0_r, Nat.add_0_r. cbn [seq fmap list_fmap app].
    change (2 ^ Z.of_nat 0) with 1. rewrite Z.mul_1_r.
    by destruct (retry_loop _ _ _ _ _).
  - destruct todo as [|todo]; [lia|]. cbn [retry_loop].
    destruct (Hfail 0%nat ltac:(lia)) as [e He]. rewrite Nat.add_0_r in He.
    rewrite He.
    destruct (Z.eqb_spec (Z.of_nat i) (maxRetries - 1)) as [Heq|_]; [lia|].
    rewrite (IH todo (S i) (delay * 2)).
    + replace (S todo - S k)%nat with (todo - k)%nat by lia.
      replace (S i + k)%nat with (i + S k)%nat by lia.
      replace (delay * 2 * 2 ^ Z.of_nat k) with (delay * 2 ^ Z.of_nat (S k)).
      2:{ rewrite Nat2Z.inj_succ, Z.pow_succ_r by lia. lia. }
      destruct (retry_loop _ _ _ _ _) as [r waits].
      by rewrite waits_succ.
    + intros j Hj. replace (S i + j)%nat with (i + S j)%nat by lia.
      apply Hfail. lia.
    + lia.
    + lia.
Qed.

Lemma sum_waits (delay : Z) (k : nat) :
  foldr Z.add 0 ((fun j : nat => delay * 2 ^ Z.of_nat j) <$> seq 0 k)
  = delay * (2 ^ Z.of_nat k - 1).
Proof.
  revert delay. induction k as [|k IH]; intros delay; [cbn; lia|].
  rewrite waits_succ. cbn [foldr]. rewrite IH.
  rewrite Nat2Z.inj_succ, Z.pow_succ_r by lia. lia.
Qed.

(** X21: [API.retry].  With [maxRetries] at most 0, [fn] is not called and
    the promise is fulfilled with [undefined].  Otherwise [fn] is called
    until it returns or has failed [maxRetries] times, and never more often:
    when the first [k] calls fail and call [k], within the limit, returns
    [a], the result is [a]; when call [k] fails and is the last one allowed,
    its error is thrown.  Between two calls the wait doubles: the waits are
    [delay], [2 delay], ..., [2^(k-1) delay], in total [(2^k - 1) delay]. *)
Theorem retry_backoff (fn : nat -> E + A) (maxRetries delay : Z) :
  (maxRetries <= 0 -> retry fn maxRetries delay = (FulfilledUndefined, []))
  /\ (forall fn' : nat -> E + A,
        (forall j, Z.of_nat j < maxRetries -> fn' j = fn j) ->
        retry fn' maxRetries delay = retry fn maxRetries delay)
  /\ (forall k : nat,
        Z.of_nat k < maxRetries ->
        (forall j, (j < k)%nat -> exists e, fn j = inl e) ->
        foldr Z.add 0 ((fun j : nat => delay * 2 ^ Z.of_nat j) <$> seq 0 k)
        = delay * (2 ^ Z.of_nat k - 1)
        /\ (forall a, fn k = inr a ->
              retry fn maxRetries delay
              = (Fulfilled a,
                 (fun j : nat => delay * 2 ^ Z.of_nat j) <$> seq 0 k))
        /\ (forall e, fn k = inl e -> Z.of_nat k = maxRetries - 1 ->
              retry fn maxRetries delay
              = (Failed e,
                 (fun j : nat => delay * 2 ^ Z.of_nat j) <$> seq 0 k))).
Proof.
  split; [|split].
  - intros Hle. unfold retry. by replace (Z.to_nat maxRetries) with 0%nat by lia.
  - intros fn' Hsame. unfold retry.
    assert (forall todo i d,
              Z.of_nat (i + todo) <= maxRetries ->
              retry_loop fn' maxRetries todo i d
              = retry_loop fn maxRetries todo i d) as Hloop.
    { induction todo as [|todo IH]; intros i d Hle; [done|].
      cbn [retry_loop]. rewrite Hsame by lia.
      destruct (fn i); [|done]. destruct (_ =? _); [done|].
      rewrite IH; [done|lia]. }
    destruct (Z.le_gt_cases maxRetries 0) as [Hle|Hgt].
    + by replace (Z.to_nat maxRetries) with 0%nat by lia.
    + apply Hloop. lia.
  - intros k Hk Hfail. split; [apply sum_waits|].
    pose proof (retry_loop_failures fn maxRetries k (Z.to_nat maxRetries) 0
                  delay Hfail ltac:(cbn; lia) ltac:(lia)) as Hrun.
    cbn [Nat.add] in Hrun.
    destruct (Z.to_nat maxRetries - k)%nat as [|todo] eqn:Htodo; [lia|].
    cbn [retry_loop] in Hrun. unfold retry. split.
    + intros a Ha. rewrite Hrun, Ha. by rewrite app_nil_r.
    + intros e He Hlast. rewrite Hrun, He.
      rewrite (proj2 (Z.eqb_eq _ _) Hlast). by rewrite app_nil_r.
Qed.

End Retry.

(** ** The token store *)

Section Tokens.

Import JsRuntime GoogleAuth.

(** X22: a token refresh keeps what it does not replace.  For token objects
    with each property once, after [handleTokenRefresh(tokens, userId)] the
    stored tokens of the user read, for every property, the new value when
    the refresh carries the property and the stored value otherwise (so a
    refresh without [refresh_token] keeps the stored one); the tokens of
    every other user are untouched; the user counts as authenticated exactly
    when the resulting access token is truthy; and a revocation then removes
    the tokens, unless the call to the revocation endpoint fails, in which
    case the method throws and the tokens stay. *)
Theorem handleTokenRefresh_merges (tokens : gmap string Js.object) (newTokens : Js.object)
  (userId : string) :
  NoDup (Js.keys newTokens) ->
  (forall t, tokens !! userId = Some t -> NoDup (Js.keys t)) ->
  (exists t',
      handleTokenRefresh tokens newTokens userId !! userId = Some t'
      /\ forall k,
           Js.get t' k
           = if bool_decide (k ∈ Js.keys newTokens) then Js.get newTokens k
             else Js.get (default [] (tokens !! userId)) k)
  /\ (forall u, u <> userId ->
        handleTokenRefresh tokens newTokens userId !! u = tokens !! u)
  /\ isAuthenticated (handleTokenRefresh tokens newTokens userId) userId
     = Js.truthy
         (if bool_decide ("access_token" ∈ Js.keys newTokens)
          then Js.get newTokens "access_token"
          else Js.get (default [] (tokens !! userId)) "access_token")
  /\ isAuthenticated
       (revokeTokens true (handleTokenRefresh tokens newTokens userId)
          userId).2 userId = false
  /\ (isAuthenticated (handleTokenRefresh tokens newTokens userId) userId
      = true ->
      revokeTokens false (handleTokenRefresh tokens newTokens userId) userId
      = (false, handleTokenRefresh tokens newTokens userId)).
Proof.
  intros Hnew Hold.
  assert (NoDup (Js.keys (default [] (tokens !! userId)))) as Hex.
  { destruct (tokens !! userId) as [t|] eqn:Ht; [by apply Hold|].
    apply NoDup_nil_2. }
  assert (handleTokenRefresh tokens newTokens userId !! userId
          = Some (spread (default [] (tokens !! userId)) newTokens)) as Hget.
  { unfold handleTokenRefresh. apply lookup_insert_eq. }
  split; [|split; [|split; [|split]]].
  - eexists. split; [exact Hget|]. intros k. by apply get_spread.
  - intros u Hu. unfold handleTokenRefresh. by apply lookup_insert_ne.
  - unfold isAuthenticated. rewrite Hget. by rewrite get_spread.
  - unfold revokeTokens. rewrite Hget. cbn [negb]. rewrite andb_false_r.
    cbn beta iota. cbn [snd]. unfold isAuthenticated.
    by rewrite lookup_delete_eq.
  - unfold isAuthenticated, revokeTokens. rewrite Hget. by intros ->.
Qed.

(** X22 for a refresh that brings a new access token and no refresh token. *)
Lemma handleTokenRefresh_merges_witness :
  (exists t',
      handleTokenRefresh DisplayExamples.stored DisplayExamples.refreshed
        "default" !! "default" = Some t'
      /\ forall k,
           Js.get t' k
           = if bool_decide (k ∈ Js.keys DisplayExamples.refreshed)
             then Js.get DisplayExamples.refreshed k
             else Js.get (default [] (DisplayExamples.stored !! "default")) k)
  /\ (forall u, u <> "default" ->
        handleTokenRefresh DisplayExamples.stored DisplayExamples.refreshed
          "default" !! u = DisplayExamples.stored !! u)
  /\ isAuthenticated
       (handleTokenRefresh DisplayExamples.stored DisplayExamples.refreshed
          "default") "default"
     = Js.truthy
         (if bool_decide ("access_token" ∈ Js.keys DisplayExamples.refreshed)
          then Js.get DisplayExamples.refreshed "access_token"
          else Js.get (default [] (DisplayExamples.stored !! "default"))
                 "access_token")
  /\ isAuthenticated
       (revokeTokens true
          (handleTokenRefresh DisplayExamples.stored DisplayExamples.refreshed
             "default") "default").2 "default" = false
  /\ (isAuthenticated
        (handleTokenRefresh DisplayExamples.stored DisplayExamples.refreshed
           "default") "default" = true ->
      revokeTokens false
        (handleTokenRefresh DisplayExamples.stored DisplayExamples.refreshed
           "default") "default"
      = (false,
         handleTokenRefresh DisplayExamples.stored DisplayExamples.refreshed
           "default")).
Proof.
  apply (handleTokenRefresh_merges DisplayExamples.stored
           DisplayExamples.refreshed "default").
  - apply (bool_decide_unpack (NoDup (Js.keys DisplayExamples.refreshed))).
    vm_compute. reflexivity.
  - intros t Ht. vm_compute in Ht. injection Ht as <-.
    apply (bool_decide_unpack _). vm_compute. reflexivity.
Defined.

End Tokens.

